(** * InpaintProcessor.process (src/processor.js): a shallow embedding

    The processor receives two [ImageData] objects, the picture and the
    mask painted over it, and fills every pixel whose mask alpha is
    positive from the colours of its unmasked 8-neighbours, one ring per
    pass. Both [data] fields are [Uint8ClampedArray]s that the function
    mutates in place; they are modelled as lists of integers that are
    threaded through the loops, with the typed-array conventions written
    out: a read outside the array is [undefined], a write outside the
    array is dropped, and a stored number is converted by ToUint8Clamp.

    The two arrays are two objects, as in [runProcessor] of src/app.js,
    which reads them off two canvases. Coordinates, addresses and sums are
    unbounded integers: the doubles of the source are exact far beyond
    the sizes at hand. The flag [isProcessing] and the console timer do not
    touch the arrays and are left out.

    Of src/app.js, the caller, the functions that keep the undo history and
    the compare state are modelled in [Module App]; the rest of that file
    drives the DOM and the canvas in floating-point screen coordinates. *)

From stdpp Require Import base list list_numbers sorting strings.
From Stdlib Require Import ZArith Lia.

#[local] Open Scope Z_scope.

(** ** JavaScript values used by the function *)

(** [ImageData]: the two dimensions and the RGBA samples, row-major. *)
Record ImageData := mkImageData {
  width : Z;
  height : Z;
  data : list Z
}.

(** [arr[i]] on a typed array: [None] stands for [undefined]. *)
Definition read (arr : list Z) (i : Z) : option Z :=
  if i <? 0 then None else arr !! Z.to_nat i.

(** [arr[i] = v] on a typed array: out of range, nothing happens. *)
Definition write (arr : list Z) (i : Z) (v : Z) : list Z :=
  if i <? 0 then arr else <[Z.to_nat i := v]> arr.

(** [v > 0] for a value read from a typed array; [undefined > 0] is
    [false]. *)
Definition gt0 (v : option Z) : bool :=
  match v with
  | Some a => 0 <? a
  | None => false
  end.

(** The accumulators [r], [g], [b] are JavaScript numbers: sums of samples,
    or [NaN] once an [undefined] has been added. *)
Inductive number :=
  | Num (z : Z)
  | NaN.

(** [acc += arr[i]] *)
Definition plus (acc : number) (v : option Z) : number :=
  match acc, v with
  | Num a, Some s => Num (a + s)
  | _, _ => NaN
  end.

(** ToUint8Clamp applied to the quotient [a / c] of an integer by a positive
    integer: clamp to [0, 255], otherwise round to the nearest integer, a
    tie going to the even one. The sums at hand are at most [8 * 255], so
    the double quotient rounds as the exact quotient does. *)
Definition ToUint8Clamp_quot (a c : Z) : Z :=
  if a <=? 0 then 0
  else if 255 * c <=? a then 255
  else
    let f := a / c in
    if 2 * f * c + c <? 2 * a then f + 1
    else if 2 * a <? 2 * f * c + c then f
    else if Z.even f then f else f + 1.

(** The value that [arr[i] = acc / count] stores; [NaN] is stored as 0. *)
Definition quot_sample (acc : number) (count : Z) : Z :=
  match acc with
  | Num a => ToUint8Clamp_quot a count
  | NaN => 0
  end.

(** The records pushed on [damagedPixels]: [{ x, y, i, solved }]. *)
Module DamagedPixel.
Record t := mk {
  x : Z;
  y : Z;
  i : Z;
  solved : bool
}.

(** [p.solved = true] *)
Definition solve (p : t) : t := mk (x p) (y p) (i p) true.
End DamagedPixel.

Abbreviation px := DamagedPixel.t.

(** [for (let v = 0; v < n; v++)] visits these values in this order. *)
Definition range (n : Z) : list Z := seqZ 0 n.

(** ** Identify damage pixels (lines 27 to 36) *)

Definition scan_cell (width : Z) (mask : list Z) (y x : Z) : list px :=
  let i := (y * width + x) * 4 in
  if gt0 (read mask (i + 3))
  then [DamagedPixel.mk x y i false]
  else [].

Definition scan_row (width : Z) (mask : list Z) (y : Z) : list px :=
  flat_map (scan_cell width mask y) (range width).

Definition scan (width height : Z) (mask : list Z) : list px :=
  flat_map (scan_row width mask) (range height).

(** ** The 8-neighbour loop (lines 53 to 76) *)

(** [(r, g, b, count)] *)
Definition sums : Type := number * number * number * Z.

Definition no_sums : sums := (Num 0, Num 0, Num 0, 0).

Definition count_of (s : sums) : Z := snd s.

(** The pairs [(dx, dy)] in the order of the two nested loops. *)
Definition offsets : list (Z * Z) :=
  flat_map (fun dy => map (fun dx => (dx, dy)) [-1; 0; 1]) [-1; 0; 1].

Definition visit (width height : Z) (data mask : list Z) (p : px)
    (s : sums) (d : Z * Z) : sums :=
  let '(dx, dy) := d in
  if (dx =? 0) && (dy =? 0) then s
  else
    let nx := DamagedPixel.x p + dx in
    let ny := DamagedPixel.y p + dy in
    if (0 <=? nx) && (nx <? width) && (0 <=? ny) && (ny <? height) then
      let ni := (ny * width + nx) * 4 in
      let isMasked := gt0 (read mask (ni + 3)) in
      if negb isMasked then
        let '(r, g, b, count) := s in
        (plus r (read data ni),
         plus g (read data (ni + 1)),
         plus b (read data (ni + 2)),
         count + 1)
      else s
    else s.

Definition neighbours (width height : Z) (data mask : list Z) (p : px) : sums :=
  fold_left (visit width height data mask p) offsets no_sums.

(** ** One pass over [damagedPixels] (lines 46 to 88) *)

(** Lines 80 to 83: the four stores into [data]. *)
Definition fill_pixel (data : list Z) (p : px) (s : sums) : list Z :=
  let '(r, g, b, count) := s in
  let i := DamagedPixel.i p in
  let data := write data i (quot_sample r count) in
  let data := write data (i + 1) (quot_sample g count) in
  let data := write data (i + 2) (quot_sample b count) in
  write data (i + 3) 255.

(** The [for k] loop. It returns the pixel array, the records with their
    [solved] flags as the pass leaves them, and [solvedThisPass]. *)
Fixpoint pass (width height : Z) (mask : list Z) (damagedPixels : list px)
    (data : list Z) : list Z * list px * list px :=
  match damagedPixels with
  | [] => (data, [], [])
  | p :: rest =>
      if DamagedPixel.solved p then
        let '(data', ps, solvedThisPass) := pass width height mask rest data in
        (data', p :: ps, solvedThisPass)
      else
        let s := neighbours width height data mask p in
        if 0 <? count_of s then
          let p' := DamagedPixel.solve p in
          let '(data', ps, solvedThisPass) :=
            pass width height mask rest (fill_pixel data p s) in
          (data', p' :: ps, p' :: solvedThisPass)
        else
          let '(data', ps, solvedThisPass) := pass width height mask rest data in
          (data', p :: ps, solvedThisPass)
  end.

(** Lines 91 to 94: [mask[sp.i + 3] = 0; remaining--] for each record of
    [solvedThisPass]. *)
Definition commit (solvedThisPass : list px) (mask : list Z) (remaining : Z)
    : list Z * Z :=
  fold_left
    (fun '(mask, remaining) sp => (write mask (DamagedPixel.i sp + 3) 0, remaining - 1))
    solvedThisPass (mask, remaining).

(** ** The pass loop (lines 41 to 97) *)

Record state := mkState {
  st_data : list Z;
  st_mask : list Z;
  damagedPixels : list px;
  remaining : Z
}.

(** The body of the [while]: one pass and its commit, with the length of
    [solvedThisPass] that line 96 tests. *)
Definition iteration (width height : Z) (st : state) : state * nat :=
  let '(data', ps, solvedThisPass) :=
    pass width height (st_mask st) (damagedPixels st) (st_data st) in
  let '(mask', remaining') := commit solvedThisPass (st_mask st) (remaining st) in
  (mkState data' mask' ps remaining', length solvedThisPass).

(** How the loop was left: the condition [remaining > 0] failed, the
    condition [maxIterations-- > 0] failed, or line 96 broke out. *)
Inductive exit :=
  | Resolved
  | CapExhausted
  | Stuck.

(** What the loop leaves behind, with two observers the source does not
    keep: the number of passes run and the way out. *)
Record outcome := mkOutcome {
  final : state;
  passes : nat;
  way_out : exit
}.

(** [while (remaining > 0 && maxIterations-- > 0) { ... }]: the recursion is
    on the value of [maxIterations]. *)
Fixpoint while (width height : Z) (maxIterations : nat) (st : state) : outcome :=
  if 0 <? remaining st then
    match maxIterations with
    | O => mkOutcome st 0 CapExhausted
    | S maxIterations' =>
        let '(st', solvedCount) := iteration width height st in
        if Nat.eqb solvedCount 0 then mkOutcome st' 1 Stuck
        else
          let o := while width height maxIterations' st' in
          mkOutcome (final o) (S (passes o)) (way_out o)
    end
  else mkOutcome st 0 Resolved.

(** [let maxIterations = 500; // Safety break] *)
Definition maxIterations : nat := 500.

(** ** [process] *)

(** The state the loop starts from. *)
Definition initial (imageData maskData : ImageData) : state :=
  let damagedPixels := scan (width imageData) (height imageData) (data maskData) in
  mkState (data imageData) (data maskData) damagedPixels
          (Z.of_nat (length damagedPixels)).

Definition run (imageData maskData : ImageData) : outcome :=
  while (width imageData) (height imageData) maxIterations
        (initial imageData maskData).

(** The two objects as the call leaves them. *)
Definition image_after (imageData maskData : ImageData) : ImageData :=
  mkImageData (width imageData) (height imageData)
              (st_data (final (run imageData maskData))).

Definition mask_after (imageData maskData : ImageData) : ImageData :=
  mkImageData (width maskData) (height maskData)
              (st_mask (final (run imageData maskData))).

(** The promise an [async] function returns settles one way or the other. *)
Inductive settled (A : Type) :=
  | Fulfilled (value : A)
  | Rejected (reason : string).

Arguments Fulfilled {A} value.
Arguments Rejected {A} reason.

(** [process] has no [throw] and no [await]: it runs to its [return
    imageData] in one go and the promise is fulfilled with that object. *)
Definition process (imageData maskData : ImageData) : settled ImageData :=
  Fulfilled (image_after imageData maskData).

(** ** Notions the statements use *)

(** The address [(y * width + x) * 4] of the red sample of pixel [(x, y)],
    as lines 30 and 64 compute it. *)
Definition offset_of (width x y : Z) : Z := (y * width + x) * 4.

(** Line 32 and line 65: the mask marks the pixel at this address. *)
Definition masked (mask : list Z) (i : Z) : bool := gt0 (read mask (i + 3)).

Definition in_bounds (width height x y : Z) : Prop :=
  0 ≤ x < width ∧ 0 ≤ y < height.

(** A record as the scanner builds it. *)
Definition px_wf (width height : Z) (p : px) : Prop :=
  in_bounds width height (DamagedPixel.x p) (DamagedPixel.y p) ∧
  DamagedPixel.i p = offset_of width (DamagedPixel.x p) (DamagedPixel.y p).

(** The guards of lines 58, 63 and 68 taken together: the offset [d]
    reaches a pixel inside the picture that the mask leaves free. *)
Definition contributes (width height : Z) (mask : list Z) (p : px) (d : Z * Z)
    : bool :=
  let nx := DamagedPixel.x p + d.1 in
  let ny := DamagedPixel.y p + d.2 in
  negb ((d.1 =? 0) && (d.2 =? 0)) &&
  ((0 <=? nx) && (nx <? width) && (0 <=? ny) && (ny <? height)) &&
  negb (masked mask (offset_of width nx ny)).

(** Lines 69 to 72. *)
Definition gather (width : Z) (data : list Z) (p : px) (s : sums) (d : Z * Z)
    : sums :=
  let ni := offset_of width (DamagedPixel.x p + d.1) (DamagedPixel.y p + d.2) in
  (plus s.1.1.1 (read data ni),
   plus s.1.1.2 (read data (ni + 1)),
   plus s.1.2 (read data (ni + 2)),
   s.2 + 1).

(** The number of neighbours that contribute: it is read off the mask
    alone. *)
Definition free_neighbours (width height : Z) (mask : list Z) (p : px) : Z :=
  Z.of_nat (length (List.filter (contributes width height mask p) offsets)).

(** Two pixel arrays that agree on the pixels the mask leaves free. *)
Definition same_free (width height : Z) (mask : list Z) (data1 data2 : list Z)
    : Prop :=
  ∀ x y c, in_bounds width height x y →
    masked mask (offset_of width x y) = false → 0 ≤ c < 4 →
    read data1 (offset_of width x y + c) = read data2 (offset_of width x y + c).

(** The record is unsolved and the test of line 78 succeeds. *)
Definition resolvable (width height : Z) (mask : list Z) (p : px) : bool :=
  negb (DamagedPixel.solved p) && (0 <? free_neighbours width height mask p).

Definition resolve (width height : Z) (mask : list Z) (p : px) : px :=
  if resolvable width height mask p then DamagedPixel.solve p else p.

(** The records still to be solved. *)
Definition unsolved (damagedPixels : list px) : list px :=
  List.filter (fun p => negb (DamagedPixel.solved p)) damagedPixels.

(** What holds of the four variables each time the loop condition is
    evaluated: the records are as scanned, a record is marked in the mask
    exactly while it is unsolved, and [remaining] counts the unsolved
    records. *)
Record Inv (width height : Z) (st : state) : Prop := mkInv {
  inv_wf : Forall (px_wf width height) (damagedPixels st);
  inv_masked : ∀ p, p ∈ damagedPixels st →
    masked (st_mask st) (DamagedPixel.i p) = negb (DamagedPixel.solved p);
  inv_remaining : remaining st = Z.of_nat (length (unsolved (damagedPixels st)))
}.

(** A record either stays as it is or goes from unsolved to solved. *)
Definition progress (p p' : px) : Prop :=
  p' = p ∨ (DamagedPixel.solved p = false ∧ p' = DamagedPixel.solve p).

(** The variables after [k] rounds of the loop body. *)
Fixpoint after (width height : Z) (k : nat) (st : state) : state :=
  match k with
  | O => st
  | S k' => after width height k' (iteration width height st).1
  end.

(** The pass as the specification words it: every sum is taken over the
    pixel array [snapshot] as it was when the pass began, while the stores
    go to the working array [data]. *)
Fixpoint pass_snapshot (width height : Z) (mask snapshot : list Z)
    (damagedPixels : list px) (data : list Z) : list Z * list px * list px :=
  match damagedPixels with
  | [] => (data, [], [])
  | p :: rest =>
      if DamagedPixel.solved p then
        let '(data', ps, solvedThisPass) :=
          pass_snapshot width height mask snapshot rest data in
        (data', p :: ps, solvedThisPass)
      else
        let s := neighbours width height snapshot mask p in
        if 0 <? count_of s then
          let p' := DamagedPixel.solve p in
          let '(data', ps, solvedThisPass) :=
            pass_snapshot width height mask snapshot rest (fill_pixel data p s) in
          (data', p' :: ps, p' :: solvedThisPass)
        else
          let '(data', ps, solvedThisPass) :=
            pass_snapshot width height mask snapshot rest data in
          (data', p :: ps, solvedThisPass)
  end.

(** What the snapshot pass does to the working array at one record. *)
Definition paint (width height : Z) (mask snapshot data : list Z) (p : px)
    : list Z :=
  if resolvable width height mask p
  then fill_pixel data p (neighbours width height snapshot mask p)
  else data.

(** [v] is the quotient [sum / count] rounded to the nearest integer, the
    even one of the two when [sum / count] lies half way. *)
Definition nearest_mean (sum count v : Z) : Prop :=
  2 * Z.abs (count * v - sum) ≤ count ∧
  (2 * Z.abs (count * v - sum) = count → Z.even v = true).

(** A colour: red, green and blue. *)
Definition rgb : Type := Z * Z * Z.

Definition red (c : rgb) : Z := c.1.1.
Definition green (c : rgb) : Z := c.1.2.
Definition blue (c : rgb) : Z := c.2.

(** The three colour samples are 8-bit values. *)
Definition byte_rgb (c : rgb) : Prop :=
  0 ≤ red c ≤ 255 ∧ 0 ≤ green c ≤ 255 ∧ 0 ≤ blue c ≤ 255.

(** The pixel at address [i] of [data] has colour [c]. *)
Definition pixel_is (data : list Z) (i : Z) (c : rgb) : Prop :=
  read data i = Some (red c) ∧
  read data (i + 1) = Some (green c) ∧
  read data (i + 2) = Some (blue c).

(** The inputs the specification calls invalid: the two objects differ in
    a dimension, or one array is shorter than [width * height * 4]. *)
Definition invalid_input (imageData maskData : ImageData) : Prop :=
  width maskData ≠ width imageData ∨
  height maskData ≠ height imageData ∨
  Z.of_nat (length (data imageData)) < width imageData * height imageData * 4 ∨
  Z.of_nat (length (data maskData)) < width maskData * height maskData * 4.

(** The input that refutes C1: a picture one pixel wide and two high with
    a mask two pixels wide and one high. *)
Definition mismatched_image : ImageData :=
  mkImageData 1 2 [1; 2; 3; 4; 5; 6; 7; 8].

Definition mismatched_mask : ImageData :=
  mkImageData 2 1 [0; 0; 0; 0; 0; 0; 0; 9].

(** The input that refutes C2: the green samples of the eight neighbours
    add up to 167. *)
Definition uneven_image : ImageData :=
  mkImageData 3 3
    [10; 20; 30; 255;  10; 20; 30; 255;  10; 20; 30; 255;
     10; 20; 30; 255;   1;  2;  3;   4;  10; 20; 30; 255;
     10; 20; 30; 255;  10; 20; 31; 255;  11; 27; 30; 255].

Definition centre_mask : ImageData :=
  mkImageData 3 3
    [0; 0; 0; 0;  0; 0; 0; 0;    0; 0; 0; 0;
     0; 0; 0; 0;  255; 0; 0; 200;  0; 0; 0; 0;
     0; 0; 0; 0;  0; 0; 0; 0;    0; 0; 0; 0].

(** The input that refutes C3: a picture one pixel wide and two high whose
    mask marks the top pixel. *)
Definition narrow_image : ImageData :=
  mkImageData 1 2 [1; 2; 3; 4; 10; 20; 30; 255].

Definition narrow_mask : ImageData :=
  mkImageData 1 2 [0; 0; 0; 200; 0; 0; 0; 0].

(** ** Notions of the further properties *)

(** A pixel of the picture that the mask leaves free. *)
Definition free_pixel (width height : Z) (mask : list Z) (x y : Z) : Prop :=
  in_bounds width height x y ∧ masked mask (offset_of width x y) = false.

(** A free pixel lies within [k] steps of [(x, y)], a step leading to any
    of the eight neighbours. *)
Definition near (width height : Z) (mask : list Z) (k : nat) (x y : Z) : Prop :=
  ∃ x' y', free_pixel width height mask x' y' ∧
           Z.abs (x - x') ≤ Z.of_nat k ∧ Z.abs (y - y') ≤ Z.of_nat k.

(** The records of all the pixels of the picture, in the order of the two
    loops of the scanner. *)
Definition grid (width height : Z) : list px :=
  flat_map
    (fun y => (fun x => DamagedPixel.mk x y (offset_of width x y) false)
                <$> range width)
    (range height).

(** What the loop keeps besides [Inv]: the unsolved records are the records
    that a scan of the mask as it is now would push, in the same order. *)
Definition Tracked (width height : Z) (st : state) : Prop :=
  Inv width height st ∧
  unsolved (damagedPixels st) = scan width height (st_mask st).

(** The sum that the neighbour loop keeps for channel [c]: 0 is red, 1 is
    green, anything else is blue. *)
Definition channel_sum (s : sums) (c : Z) : number :=
  if c =? 0 then s.1.1.1 else if c =? 1 then s.1.1.2 else s.1.2.

(** The sample at address [i] is there and lies between [lo] and [hi]. *)
Definition sample_within (lo hi : Z) (data : list Z) (i : Z) : Prop :=
  ∃ v, read data i = Some v ∧ lo ≤ v ≤ hi.

(** Channel [c] of every free pixel of the picture lies between [lo] and
    [hi]. *)
Definition Within (width height lo hi c : Z) (st : state) : Prop :=
  ∀ x y, in_bounds width height x y →
    masked (st_mask st) (offset_of width x y) = false →
    sample_within lo hi (st_data st) (offset_of width x y + c).

(** The order in which the two loops of the scanner visit the pixels: row
    by row, and from left to right in a row. *)
Definition row_major (p q : px) : Prop :=
  DamagedPixel.y p < DamagedPixel.y q ∨
  (DamagedPixel.y p = DamagedPixel.y q ∧ DamagedPixel.x p < DamagedPixel.x q).

(** A strip of 502 pixels in one row whose mask marks every pixel but the
    last one: the leftmost pixel is 501 steps away from the only free
    pixel, one step more than the 500 passes can cover. *)
Definition strip_image : ImageData :=
  mkImageData 502 1 (flat_map (λ x, [x `mod` 256; 20; 30; 255]) (range 502)).

Definition strip_mask : ImageData :=
  mkImageData 502 1
    (flat_map (λ x, [0; 0; 0; if x <? 501 then 255 else 0]) (range 502)).

(** ** The history of src/app.js (lines 375 to 402)

    [saveState], [undo] and [showOriginal] move [ImageData] objects between
    the canvas and three fields of the application. The canvas itself is
    not modelled: what [ctx.getImageData] returns at a call is the
    argument [current], and what a call hands to [ctx.putImageData] is the
    first component of its result. *)
Module App.
Record t := mk {
  history : list ImageData;
  originalImageData : option ImageData;
  tempState : option ImageData;
  undoBtn_disabled : bool
}.

(** Lines 375 to 382. *)
Definition saveState (isInitial : bool) (current : ImageData) (app : t) : t :=
  let originalImageData :=
    if isInitial then Some current else originalImageData app in
  let history := history app ++ [current] in
  let history := if (20 <? length history)%nat then tail history else history in
  mk history originalImageData (tempState app) (length history =? 0)%nat.

(** Lines 384 to 390; [history.pop()] takes the last entry. *)
Definition undo (app : t) : option ImageData * t :=
  if (0 <? length (history app))%nat then
    let state := last (history app) in
    let history := removelast (history app) in
    (state,
     mk history (originalImageData app) (tempState app) (length history =? 0)%nat)
  else (None, app).

(** Lines 392 to 402. *)
Definition showOriginal (show : bool) (current : ImageData) (app : t)
    : option ImageData * t :=
  match originalImageData app with
  | None => (None, app)
  | Some original =>
      if show then
        (Some original,
         mk (history app) (originalImageData app) (Some current)
            (undoBtn_disabled app))
      else
        match tempState app with
        | Some state =>
            (Some state,
             mk (history app) (originalImageData app) None (undoBtn_disabled app))
        | None => (None, app)
        end
  end.
End App.

(** * Typed arrays *)

Section arrays.
Implicit Types (arr : list Z) (i j v : Z).

Lemma read_write_ne arr i j v : i ≠ j → read (write arr i v) j = read arr j.
Proof.
  intros Hne. unfold read, write.
  destruct (Z.ltb_spec j 0); [done|].
  destruct (Z.ltb_spec i 0); [done|].
  apply list_lookup_insert_ne. lia.
Qed.

Lemma read_write_eq arr i v :
  read (write arr i v) i = (fun _ => v) <$> read arr i.
Proof.
  unfold read, write. destruct (Z.ltb_spec i 0); [done|].
  destruct (decide (Z.to_nat i < length arr)%nat) as [Hlt|Hge].
  - rewrite list_lookup_insert_eq by done.
    destruct (lookup_lt_is_Some_2 arr _ Hlt) as [u ->]. done.
  - rewrite list_insert_ge by lia. rewrite lookup_ge_None_2 by lia. done.
Qed.

Lemma length_write arr i v : length (write arr i v) = length arr.
Proof. unfold write. destruct (i <? 0); [done|]. apply length_insert. Qed.

(** Two arrays with the same reads are the same array. *)
Lemma read_ext arr1 arr2 :
  (∀ j, 0 ≤ j → read arr1 j = read arr2 j) → arr1 = arr2.
Proof.
  intros H. apply list_eq. intros k.
  specialize (H (Z.of_nat k) ltac:(lia)). unfold read in H.
  destruct (Z.ltb_spec (Z.of_nat k) 0); [lia|].
  by rewrite Nat2Z.id in H.
Qed.

Lemma gt0_read_write arr i : gt0 (read (write arr i 0) i) = false.
Proof. rewrite read_write_eq. by destruct (read arr i). Qed.
End arrays.

(** * The [for] ranges *)

Lemma elem_of_range n z : z ∈ range n ↔ 0 ≤ z < n.
Proof. unfold range. rewrite elem_of_seqZ. lia. Qed.

Lemma NoDup_range n : NoDup (range n).
Proof. apply NoDup_seqZ. Qed.

Lemma length_range n : length (range n) = Z.to_nat n.
Proof. apply length_seqZ. Qed.

Section flat_map.
Context {A B : Type}.
Implicit Types (f : A → list B) (l : list A).

Lemma elem_of_flat_map f l b : b ∈ flat_map f l ↔ ∃ a, a ∈ l ∧ b ∈ f a.
Proof.
  setoid_rewrite list_elem_of_In. apply in_flat_map.
Qed.

Lemma flat_map_nil f l : (∀ a, a ∈ l → f a = []) → flat_map f l = [].
Proof.
  induction l as [|a l IH]; [done|]. intros H. simpl.
  rewrite (H a) by left. apply IH. intros b Hb. apply H. by right.
Qed.

(** A loop that pushes at one of its rounds only. *)
Lemma flat_map_only f l a :
  NoDup l → a ∈ l → (∀ b, b ∈ l → b ≠ a → f b = []) → flat_map f l = f a.
Proof.
  induction l as [|c l IH]; intros Hnd Hin Hother.
  - by apply elem_of_nil in Hin.
  - apply NoDup_cons in Hnd as [Hc Hnd]. simpl.
    apply elem_of_cons in Hin as [->|Hin].
    + rewrite flat_map_nil; [by rewrite app_nil_r|].
      intros b Hb. apply Hother; [by right|]. intros ->. done.
    + rewrite (Hother c); [|by left|by intros ->]. simpl.
      apply IH; [done..|]. intros b Hb. apply Hother. by right.
Qed.

(** A loop that pushes once at each of its rounds. *)
Lemma flat_map_each f l (g : A → B) :
  (∀ a, a ∈ l → f a = [g a]) → flat_map f l = g <$> l.
Proof.
  induction l as [|a l IH]; [done|]. intros H. simpl.
  rewrite (H a) by left. simpl. f_equal. apply IH.
  intros b Hb. apply H. by right.
Qed.
End flat_map.

(** * Pixels and their addresses *)

Lemma offset_of_inj width x1 y1 x2 y2 :
  0 ≤ x1 < width → 0 ≤ x2 < width →
  offset_of width x1 y1 = offset_of width x2 y2 → x1 = x2 ∧ y1 = y2.
Proof.
  unfold offset_of. intros H1 H2 Heq.
  assert (y1 = y2) as -> by (destruct (Z.lt_trichotomy y1 y2) as [?|[?|?]]; nia).
  lia.
Qed.

(** * The scanner *)

Section scanner.
Context (width height : Z) (mask : list Z).

Lemma scan_cell_eq y x :
  scan_cell width mask y x =
    if masked mask (offset_of width x y)
    then [DamagedPixel.mk x y (offset_of width x y) false] else [].
Proof. reflexivity. Qed.

Lemma elem_of_scan p :
  p ∈ scan width height mask ↔
  ∃ x y, in_bounds width height x y ∧
         masked mask (offset_of width x y) = true ∧
         p = DamagedPixel.mk x y (offset_of width x y) false.
Proof.
  unfold scan, scan_row. rewrite elem_of_flat_map. split.
  - intros (y & Hy & Hp). apply elem_of_flat_map in Hp as (x & Hx & Hp).
    apply elem_of_range in Hy, Hx. rewrite scan_cell_eq in Hp.
    destruct (masked _ _) eqn:Hm; [|by apply elem_of_nil in Hp].
    apply list_elem_of_singleton in Hp. by exists x, y.
  - intros (x & y & [Hx Hy] & Hm & ->). exists y.
    split; [by apply elem_of_range|]. apply elem_of_flat_map.
    exists x. split; [by apply elem_of_range|].
    rewrite scan_cell_eq, Hm. by apply list_elem_of_singleton.
Qed.

Lemma scan_wf : Forall (px_wf width height) (scan width height mask).
Proof.
  apply Forall_forall. intros p (x & y & Hb & _ & ->)%elem_of_scan. done.
Qed.

Lemma scan_unsolved p :
  p ∈ scan width height mask → DamagedPixel.solved p = false.
Proof. by intros (x & y & _ & _ & ->)%elem_of_scan. Qed.

Lemma scan_masked p :
  p ∈ scan width height mask → masked mask (DamagedPixel.i p) = true.
Proof. by intros (x & y & _ & ? & ->)%elem_of_scan. Qed.

(** No pixel marked: nothing is pushed. *)
Lemma scan_none :
  (∀ x y, in_bounds width height x y → masked mask (offset_of width x y) = false) →
  scan width height mask = [].
Proof.
  intros Hclean. unfold scan. apply flat_map_nil. intros y Hy%elem_of_range.
  unfold scan_row. apply flat_map_nil. intros x Hx%elem_of_range.
  rewrite scan_cell_eq, Hclean; done.
Qed.

(** One pixel marked: one record. *)
Lemma scan_one x0 y0 :
  in_bounds width height x0 y0 →
  masked mask (offset_of width x0 y0) = true →
  (∀ x y, in_bounds width height x y → (x, y) ≠ (x0, y0) →
          masked mask (offset_of width x y) = false) →
  scan width height mask = [DamagedPixel.mk x0 y0 (offset_of width x0 y0) false].
Proof.
  intros [Hx0 Hy0] Hm Hother. unfold scan.
  rewrite (flat_map_only _ _ y0);
    [|apply NoDup_range|by apply elem_of_range|].
  - unfold scan_row. rewrite (flat_map_only _ _ x0);
      [|apply NoDup_range|by apply elem_of_range|].
    + by rewrite scan_cell_eq, Hm.
    + intros x Hx%elem_of_range Hne. rewrite scan_cell_eq, Hother; [done..|].
      congruence.
  - intros y Hy%elem_of_range Hne. unfold scan_row.
    apply flat_map_nil. intros x Hx%elem_of_range.
    rewrite scan_cell_eq, Hother; [done..|]. congruence.
Qed.

(** Every pixel marked: one record for each. *)
Lemma scan_all :
  (∀ x y, in_bounds width height x y → masked mask (offset_of width x y) = true) →
  length (scan width height mask) = (Z.to_nat height * Z.to_nat width)%nat.
Proof.
  intros Hall. unfold scan.
  assert (∀ l, (∀ y, y ∈ l → 0 ≤ y < height) →
               length (flat_map (scan_row width mask) l)
               = (length l * Z.to_nat width)%nat) as Hrows.
  { induction l as [|y l IH]; intros Hl; [done|]. simpl.
    rewrite length_app, IH by (intros; apply Hl; by right).
    f_equal. unfold scan_row.
    rewrite (flat_map_each _ _
      (fun x => DamagedPixel.mk x y (offset_of width x y) false)).
    - by rewrite length_fmap, length_range.
    - intros x Hx%elem_of_range. rewrite scan_cell_eq, Hall; [done|].
      split; [done|]. apply Hl. by left. }
  rewrite Hrows, length_range; [done|]. by intros y Hy%elem_of_range.
Qed.
End scanner.

(** * The neighbour loop *)

Section neighbours.
Context (width height : Z) (mask : list Z).

Lemma visit_eq data p s d :
  visit width height data mask p s d =
    if contributes width height mask p d then gather width data p s d else s.
Proof.
  unfold visit, contributes, gather, masked, offset_of.
  destruct d as [dx dy], s as [[[r g] b] count]. simpl.
  destruct ((dx =? 0) && (dy =? 0)); [done|]. simpl.
  destruct (_ && _ && _ && _); [|done]. simpl.
  by destruct (gt0 _).
Qed.

Lemma contributes_in_bounds p d :
  contributes width height mask p d = true →
  in_bounds width height (DamagedPixel.x p + d.1) (DamagedPixel.y p + d.2) ∧
  masked mask (offset_of width (DamagedPixel.x p + d.1) (DamagedPixel.y p + d.2))
    = false.
Proof.
  unfold contributes, in_bounds.
  rewrite !andb_true_iff, !negb_true_iff, !Z.leb_le, !Z.ltb_lt.
  intros [[_ [[[? ?] ?] ?]] ?]. repeat split; lia || done.
Qed.

Lemma count_of_fold data p l s :
  count_of (fold_left (visit width height data mask p) l s) =
    count_of s + Z.of_nat (length (List.filter (contributes width height mask p) l)).
Proof.
  revert s. induction l as [|d l IH]; intros s; simpl; [lia|].
  rewrite IH, visit_eq. destruct (contributes width height mask p d); simpl; [|done].
  unfold count_of, gather. simpl. lia.
Qed.

Lemma count_of_neighbours data p :
  count_of (neighbours width height data mask p) = free_neighbours width height mask p.
Proof. unfold neighbours. by rewrite count_of_fold. Qed.

Lemma same_free_refl data : same_free width height mask data data.
Proof. by intros x y c. Qed.

(** The sums depend on the free pixels only. *)
Lemma neighbours_same_free data1 data2 p :
  same_free width height mask data1 data2 →
  neighbours width height data1 mask p = neighbours width height data2 mask p.
Proof.
  intros Hsame. unfold neighbours. generalize no_sums.
  induction offsets as [|d l IH]; intros s; [done|]. simpl.
  rewrite !visit_eq. destruct (contributes width height mask p d) eqn:Hc; [|done].
  apply contributes_in_bounds in Hc as [Hb Hm].
  replace (gather width data1 p s d) with (gather width data2 p s d); [done|].
  unfold gather.
  pose proof (Hsame _ _ 0 Hb Hm ltac:(lia)) as H0. rewrite Z.add_0_r in H0.
  by rewrite H0, (Hsame _ _ 1 Hb Hm), (Hsame _ _ 2 Hb Hm) by lia.
Qed.

(** Where every pixel is marked, no neighbour contributes. *)
Lemma neighbours_all_masked data p :
  (∀ x y, in_bounds width height x y → masked mask (offset_of width x y) = true) →
  neighbours width height data mask p = no_sums.
Proof.
  intros Hall. unfold neighbours. generalize no_sums.
  induction offsets as [|d l IH]; intros s; [done|]. simpl.
  rewrite visit_eq. destruct (contributes width height mask p d) eqn:Hc; [|done].
  apply contributes_in_bounds in Hc as [Hb Hm]. rewrite Hall in Hm; done.
Qed.
End neighbours.

(** * The four stores *)

Section stores.
Implicit Types (data : list Z) (p : px) (s : sums).

Lemma read_fill_pixel_other data p s j :
  j < DamagedPixel.i p ∨ DamagedPixel.i p + 3 < j →
  read (fill_pixel data p s) j = read data j.
Proof.
  intros Hj. unfold fill_pixel. destruct s as [[[r g] b] count].
  rewrite !read_write_ne by lia. done.
Qed.

Lemma length_fill_pixel data p s : length (fill_pixel data p s) = length data.
Proof.
  unfold fill_pixel. destruct s as [[[r g] b] count].
  by rewrite !length_write.
Qed.

(** What the four stores leave at the pixel: present samples are
    replaced, absent ones stay absent. *)
Lemma read_fill_pixel data p r g b count :
  let i := DamagedPixel.i p in
  let data' := fill_pixel data p (r, g, b, count) in
  read data' i = (fun _ => quot_sample r count) <$> read data i ∧
  read data' (i + 1) = (fun _ => quot_sample g count) <$> read data (i + 1) ∧
  read data' (i + 2) = (fun _ => quot_sample b count) <$> read data (i + 2) ∧
  read data' (i + 3) = (fun _ => 255) <$> read data (i + 3).
Proof.
  simpl. unfold fill_pixel.
  repeat split.
  - rewrite !(read_write_ne _ (_ + _)) by lia. apply read_write_eq.
  - rewrite !(read_write_ne _ (_ + 3)), !(read_write_ne _ (_ + 2)) by lia.
    rewrite read_write_eq. by rewrite read_write_ne by lia.
  - rewrite !(read_write_ne _ (_ + 3)) by lia.
    rewrite read_write_eq. by rewrite !read_write_ne by lia.
  - rewrite read_write_eq. by rewrite !read_write_ne by lia.
Qed.

(** Stores to two different pixels can be swapped. *)
Lemma fill_pixel_commute data p q s t :
  DamagedPixel.i p + 3 < DamagedPixel.i q ∨ DamagedPixel.i q + 3 < DamagedPixel.i p →
  fill_pixel (fill_pixel data p s) q t = fill_pixel (fill_pixel data q t) p s.
Proof.
  intros Hpq. apply read_ext. intros j Hj.
  destruct (decide (DamagedPixel.i p ≤ j ≤ DamagedPixel.i p + 3)) as [Hp|Hp].
  - rewrite (read_fill_pixel_other _ q) by lia.
    destruct s as [[[r g] b] count].
    destruct (read_fill_pixel data p r g b count) as (H0 & H1 & H2 & H3).
    destruct (read_fill_pixel (fill_pixel data q t) p r g b count)
      as (K0 & K1 & K2 & K3).
    simpl in *.
    assert (j = DamagedPixel.i p ∨ j = DamagedPixel.i p + 1 ∨
            j = DamagedPixel.i p + 2 ∨ j = DamagedPixel.i p + 3)
      as [-> | [-> | [-> | ->]]] by lia.
    + rewrite H0, K0. by rewrite read_fill_pixel_other by lia.
    + rewrite H1, K1. by rewrite read_fill_pixel_other by lia.
    + rewrite H2, K2. by rewrite read_fill_pixel_other by lia.
    + rewrite H3, K3. by rewrite read_fill_pixel_other by lia.
  - rewrite (read_fill_pixel_other _ p) by lia.
    destruct (decide (DamagedPixel.i q ≤ j ≤ DamagedPixel.i q + 3)) as [Hq|Hq].
    + destruct t as [[[r g] b] count].
      destruct (read_fill_pixel data q r g b count) as (H0 & H1 & H2 & H3).
      destruct (read_fill_pixel (fill_pixel data p s) q r g b count)
        as (K0 & K1 & K2 & K3).
      simpl in *.
      assert (j = DamagedPixel.i q ∨ j = DamagedPixel.i q + 1 ∨
              j = DamagedPixel.i q + 2 ∨ j = DamagedPixel.i q + 3)
        as [-> | [-> | [-> | ->]]] by lia.
      * rewrite H0, K0. by rewrite read_fill_pixel_other by lia.
      * rewrite H1, K1. by rewrite read_fill_pixel_other by lia.
      * rewrite H2, K2. by rewrite read_fill_pixel_other by lia.
      * rewrite H3, K3. by rewrite read_fill_pixel_other by lia.
    + by rewrite !read_fill_pixel_other by lia.
Qed.
End stores.

(** * One pass *)

Section one_pass.
Context (width height : Z) (mask : list Z).

Lemma pass_cons p rest data :
  pass width height mask (p :: rest) data =
    if DamagedPixel.solved p then
      let '(data', ps, solvedThisPass) := pass width height mask rest data in
      (data', p :: ps, solvedThisPass)
    else
      let s := neighbours width height data mask p in
      if 0 <? count_of s then
        let p' := DamagedPixel.solve p in
        let '(data', ps, solvedThisPass) :=
          pass width height mask rest (fill_pixel data p s) in
        (data', p' :: ps, p' :: solvedThisPass)
      else
        let '(data', ps, solvedThisPass) := pass width height mask rest data in
        (data', p :: ps, solvedThisPass).
Proof. reflexivity. Qed.

(** The records and [solvedThisPass] after a pass are read off the mask;
    the pixel array keeps its length and changes at resolvable records
    only. *)
Lemma pass_spec damagedPixels data :
  ∃ data',
    pass width height mask damagedPixels data =
      (data', resolve width height mask <$> damagedPixels,
       DamagedPixel.solve <$>
         List.filter (resolvable width height mask) damagedPixels) ∧
    length data' = length data ∧
    ∀ j, (∀ p, p ∈ damagedPixels → resolvable width height mask p = true →
               j < DamagedPixel.i p ∨ DamagedPixel.i p + 3 < j) →
         read data' j = read data j.
Proof.
  revert data. induction damagedPixels as [|p rest IH]; intros data.
  { by exists data. }
  rewrite pass_cons, fmap_cons. simpl List.filter.
  destruct (DamagedPixel.solved p) eqn:Hs.
  - assert (resolvable width height mask p = false) as Hr
      by (unfold resolvable; by rewrite Hs).
    unfold resolve at 1. rewrite Hr.
    destruct (IH data) as (data' & -> & Hlen & Hframe).
    exists data'. split; [done|]. split; [done|].
    intros j Hj. apply Hframe. intros q Hq. apply Hj. by right.
  - assert (resolvable width height mask p =
            (0 <? free_neighbours width height mask p)) as Hr
      by (unfold resolvable; by rewrite Hs).
    unfold resolve at 1. rewrite Hr. cbv zeta. rewrite count_of_neighbours.
    destruct (0 <? free_neighbours width height mask p) eqn:Hc.
    + destruct (IH (fill_pixel data p (neighbours width height data mask p)))
        as (data' & -> & Hlen & Hframe).
      exists data'. split; [done|].
      split; [by rewrite Hlen, length_fill_pixel|].
      intros j Hj. rewrite Hframe by (intros q Hq; apply Hj; by right).
      apply read_fill_pixel_other. apply Hj; [by left|done].
    + destruct (IH data) as (data' & -> & Hlen & Hframe).
      exists data'. split; [done|]. split; [done|].
      intros j Hj. apply Hframe. intros q Hq. apply Hj. by right.
Qed.

Lemma pass_solved damagedPixels data :
  (pass width height mask damagedPixels data).2 =
    DamagedPixel.solve <$> List.filter (resolvable width height mask) damagedPixels.
Proof. by destruct (pass_spec damagedPixels data) as (? & -> & _). Qed.

Lemma pass_frame damagedPixels data j :
  (∀ p, p ∈ damagedPixels → resolvable width height mask p = true →
        j < DamagedPixel.i p ∨ DamagedPixel.i p + 3 < j) →
  read (pass width height mask damagedPixels data).1.1 j = read data j.
Proof.
  destruct (pass_spec damagedPixels data) as (? & -> & _ & H). apply H.
Qed.

Lemma pass_length damagedPixels data :
  length (pass width height mask damagedPixels data).1.1 = length data.
Proof. by destruct (pass_spec damagedPixels data) as (? & -> & H & _). Qed.

(** Nothing resolvable: the pass changes nothing. *)
Lemma pass_stuck damagedPixels data :
  (∀ p, p ∈ damagedPixels → resolvable width height mask p = false) →
  pass width height mask damagedPixels data = (data, damagedPixels, []).
Proof.
  revert data. induction damagedPixels as [|p rest IH]; intros data Hno; [done|].
  pose proof (Hno p ltac:(by left)) as Hp. unfold resolvable in Hp.
  rewrite pass_cons. cbv zeta. rewrite count_of_neighbours.
  destruct (DamagedPixel.solved p); simpl in Hp.
  - rewrite IH; [done|]. intros q Hq. apply Hno. by right.
  - rewrite Hp. rewrite IH; [done|]. intros q Hq. apply Hno. by right.
Qed.

Lemma resolve_solved p :
  DamagedPixel.solved (resolve width height mask p) =
    DamagedPixel.solved p || resolvable width height mask p.
Proof.
  unfold resolve. destruct (resolvable width height mask p) eqn:Hr; simpl.
  - by rewrite orb_true_r.
  - by rewrite orb_false_r.
Qed.

Lemma resolve_coords p :
  DamagedPixel.x (resolve width height mask p) = DamagedPixel.x p ∧
  DamagedPixel.y (resolve width height mask p) = DamagedPixel.y p ∧
  DamagedPixel.i (resolve width height mask p) = DamagedPixel.i p.
Proof. unfold resolve. by destruct (resolvable width height mask p). Qed.

Lemma resolve_wf p :
  px_wf width height p → px_wf width height (resolve width height mask p).
Proof.
  unfold px_wf. destruct (resolve_coords p) as (-> & -> & ->). done.
Qed.
End one_pass.

(** * The commit *)

Section commit.
Implicit Types (solvedThisPass : list px) (mask : list Z) (remaining j : Z).

Lemma commit_cons sp solvedThisPass mask remaining :
  commit (sp :: solvedThisPass) mask remaining =
    commit solvedThisPass (write mask (DamagedPixel.i sp + 3) 0) (remaining - 1).
Proof. reflexivity. Qed.

Lemma commit_remaining solvedThisPass mask remaining :
  (commit solvedThisPass mask remaining).2 =
    remaining - Z.of_nat (length solvedThisPass).
Proof.
  revert mask remaining.
  induction solvedThisPass as [|sp l IH]; intros mask remaining.
  - simpl. lia.
  - rewrite commit_cons, IH. simpl length. lia.
Qed.

Lemma commit_length solvedThisPass mask remaining :
  length (commit solvedThisPass mask remaining).1 = length mask.
Proof.
  revert mask remaining.
  induction solvedThisPass as [|sp l IH]; intros mask remaining; [done|].
  by rewrite commit_cons, IH, length_write.
Qed.

(** Away from the alpha samples of the committed records the mask is as
    before. *)
Lemma commit_frame solvedThisPass mask remaining j :
  (∀ sp, sp ∈ solvedThisPass → DamagedPixel.i sp + 3 ≠ j) →
  read (commit solvedThisPass mask remaining).1 j = read mask j.
Proof.
  revert mask remaining.
  induction solvedThisPass as [|sp l IH]; intros mask remaining Hj; [done|].
  rewrite commit_cons, IH by (intros; apply Hj; by right).
  apply read_write_ne. apply Hj. by left.
Qed.

(** A mark that is off stays off: the commit stores zeros only. *)
Lemma commit_keeps_free solvedThisPass mask remaining j :
  gt0 (read mask j) = false →
  gt0 (read (commit solvedThisPass mask remaining).1 j) = false.
Proof.
  revert mask remaining.
  induction solvedThisPass as [|sp l IH]; intros mask remaining Hj; [done|].
  rewrite commit_cons. apply IH.
  destruct (decide (DamagedPixel.i sp + 3 = j)) as [<-|Hne].
  - apply gt0_read_write.
  - by rewrite read_write_ne.
Qed.

(** The mark of every committed record is off. *)
Lemma commit_clears solvedThisPass mask remaining sp :
  sp ∈ solvedThisPass →
  masked (commit solvedThisPass mask remaining).1 (DamagedPixel.i sp) = false.
Proof.
  unfold masked. revert mask remaining.
  induction solvedThisPass as [|sq l IH]; intros mask remaining Hin.
  { by apply elem_of_nil in Hin. }
  rewrite commit_cons. apply elem_of_cons in Hin as [->|Hin].
  - apply commit_keeps_free, gt0_read_write.
  - by apply IH.
Qed.
End commit.

(** * The loop body *)

Section body.
Context (width height : Z).

Lemma contributes_coords mask p q d :
  DamagedPixel.x p = DamagedPixel.x q → DamagedPixel.y p = DamagedPixel.y q →
  contributes width height mask p d = contributes width height mask q d.
Proof. unfold contributes. by intros -> ->. Qed.

Lemma free_neighbours_coords mask p q :
  DamagedPixel.x p = DamagedPixel.x q → DamagedPixel.y p = DamagedPixel.y q →
  free_neighbours width height mask p = free_neighbours width height mask q.
Proof.
  intros Hx Hy. unfold free_neighbours. do 2 f_equal.
  induction offsets as [|d l IH]; [done|]. simpl.
  by rewrite (contributes_coords mask p q d Hx Hy), IH.
Qed.

(** Two scanned records at one address are records of one pixel. *)
Lemma px_wf_same_pixel p q :
  px_wf width height p → px_wf width height q →
  DamagedPixel.i p = DamagedPixel.i q →
  DamagedPixel.x p = DamagedPixel.x q ∧ DamagedPixel.y p = DamagedPixel.y q.
Proof.
  intros [[Hpx _] Hpi] [[Hqx _] Hqi] Heq. rewrite Hpi, Hqi in Heq.
  by apply offset_of_inj in Heq.
Qed.

Lemma iteration_spec st :
  let solvedThisPass :=
    DamagedPixel.solve <$>
      List.filter (resolvable width height (st_mask st)) (damagedPixels st) in
  iteration width height st =
    (mkState
       (pass width height (st_mask st) (damagedPixels st) (st_data st)).1.1
       (commit solvedThisPass (st_mask st) (remaining st)).1
       (resolve width height (st_mask st) <$> damagedPixels st)
       (remaining st - Z.of_nat (length solvedThisPass)),
     length solvedThisPass).
Proof.
  intros stp. unfold iteration.
  destruct (pass_spec width height (st_mask st) (damagedPixels st) (st_data st))
    as (data' & -> & _). fold stp.
  pose proof (commit_remaining stp (st_mask st) (remaining st)) as Hrem.
  destruct (commit stp (st_mask st) (remaining st)) as [mask' remaining'].
  simpl in *. by rewrite Hrem.
Qed.

Lemma progress_resolve mask p : progress p (resolve width height mask p).
Proof.
  unfold progress, resolve, resolvable.
  destruct (DamagedPixel.solved p); simpl; [by left|].
  destruct (0 <? _); [by right|by left].
Qed.

Lemma iteration_progress st :
  Forall2 progress (damagedPixels st) (damagedPixels (iteration width height st).1).
Proof.
  rewrite iteration_spec. simpl. apply Forall2_fmap_r, Forall_Forall2_diag.
  apply Forall_forall. intros p _. apply progress_resolve.
Qed.

Lemma unsolved_resolve mask damagedPixels :
  length (unsolved damagedPixels) =
    (length (unsolved (resolve width height mask <$> damagedPixels)) +
     length (List.filter (resolvable width height mask) damagedPixels))%nat.
Proof.
  induction damagedPixels as [|p l IH]; [done|].
  rewrite fmap_cons. unfold unsolved in *. simpl List.filter.
  rewrite resolve_solved.
  assert (resolvable width height mask p =
          negb (DamagedPixel.solved p) &&
          (0 <? free_neighbours width height mask p)) as -> by done.
  destruct (DamagedPixel.solved p); cbn [negb andb orb].
  - lia.
  - destruct (0 <? _); cbn [negb length]; lia.
Qed.

(** The invariant is kept by the body. *)
Lemma iteration_Inv st :
  Inv width height st → Inv width height (iteration width height st).1.
Proof.
  intros [Hwf Hmasked Hrem]. rewrite iteration_spec. simpl. split; simpl.
  - apply Forall_fmap. eapply Forall_impl; [done|].
    intros p Hp. by apply resolve_wf.
  - intros p' (p & -> & Hp)%list_elem_of_fmap.
    destruct (resolve_coords width height (st_mask st) p) as (_ & _ & ->).
    rewrite resolve_solved.
    destruct (resolvable width height (st_mask st) p) eqn:Hr.
    + rewrite orb_true_r. simpl.
      change (DamagedPixel.i p) with (DamagedPixel.i (DamagedPixel.solve p)).
      apply commit_clears, list_elem_of_fmap. exists p. split; [done|].
      apply list_elem_of_In, filter_In. split; [|done]. by apply list_elem_of_In.
    + rewrite orb_false_r. pose proof (Hmasked p Hp) as Hm.
      destruct (DamagedPixel.solved p) eqn:Hs; simpl in *.
      * by apply commit_keeps_free.
      * rewrite <- Hm. unfold masked. f_equal. apply commit_frame.
        intros sp (q & -> & Hq)%list_elem_of_fmap. simpl. intros Heq.
        apply list_elem_of_In, filter_In in Hq as [Hq Hrq].
        apply list_elem_of_In in Hq.
        rewrite Forall_forall in Hwf.
        destruct (px_wf_same_pixel q p) as [Hx Hy]; [by apply Hwf..|lia|].
        unfold resolvable in Hr, Hrq.
        rewrite (free_neighbours_coords _ q p Hx Hy) in Hrq.
        rewrite Hs in Hr. simpl in Hr.
        apply andb_true_iff in Hrq as [_ Hrq]. congruence.
  - rewrite Hrem, length_fmap.
    rewrite (unsolved_resolve (st_mask st) (damagedPixels st)). lia.
Qed.

(** The body changes a pixel sample only inside an unsolved record. *)
Lemma iteration_data_frame st j :
  (∀ p, p ∈ damagedPixels st → DamagedPixel.solved p = false →
        j < DamagedPixel.i p ∨ DamagedPixel.i p + 3 < j) →
  read (st_data (iteration width height st).1) j = read (st_data st) j.
Proof.
  intros Hj. rewrite iteration_spec. simpl. apply pass_frame.
  intros p Hp Hr. apply Hj; [done|]. unfold resolvable in Hr.
  apply andb_true_iff in Hr as [Hr _]. by apply negb_true_iff in Hr.
Qed.

(** The body changes a mask sample only at the alpha of an unsolved
    record. *)
Lemma iteration_mask_frame st j :
  (∀ p, p ∈ damagedPixels st → DamagedPixel.solved p = false →
        DamagedPixel.i p + 3 ≠ j) →
  read (st_mask (iteration width height st).1) j = read (st_mask st) j.
Proof.
  intros Hj. rewrite iteration_spec. simpl. apply commit_frame.
  intros sp (q & -> & Hq)%list_elem_of_fmap. simpl.
  apply list_elem_of_In, filter_In in Hq as [Hq Hr]. apply list_elem_of_In in Hq.
  apply Hj; [done|]. unfold resolvable in Hr.
  apply andb_true_iff in Hr as [Hr _]. by apply negb_true_iff in Hr.
Qed.

Lemma iteration_mask_free st j :
  gt0 (read (st_mask st) j) = false →
  gt0 (read (st_mask (iteration width height st).1) j) = false.
Proof. intros Hj. rewrite iteration_spec. simpl. by apply commit_keeps_free. Qed.

Lemma iteration_lengths st :
  length (st_data (iteration width height st).1) = length (st_data st) ∧
  length (st_mask (iteration width height st).1) = length (st_mask st).
Proof.
  rewrite iteration_spec. simpl. by rewrite pass_length, commit_length.
Qed.
End body.

(** * The loop *)

Section loop.
Context (width height : Z).

Lemma while_S maxIterations st :
  while width height (S maxIterations) st =
    if 0 <? remaining st then
      if Nat.eqb (iteration width height st).2 0
      then mkOutcome (iteration width height st).1 1 Stuck
      else
        let o := while width height maxIterations (iteration width height st).1 in
        mkOutcome (final o) (S (passes o)) (way_out o)
    else mkOutcome st 0 Resolved.
Proof. simpl. by destruct (iteration width height st). Qed.

Lemma while_O st :
  while width height 0 st =
    if 0 <? remaining st then mkOutcome st 0 CapExhausted
    else mkOutcome st 0 Resolved.
Proof. reflexivity. Qed.

(** The loop runs the body [passes] times. *)
Lemma while_after maxIterations st :
  final (while width height maxIterations st) =
    after width height (passes (while width height maxIterations st)) st.
Proof.
  revert st. induction maxIterations as [|n IH]; intros st.
  - rewrite while_O. by destruct (0 <? remaining st).
  - rewrite while_S. destruct (0 <? remaining st); [|done].
    destruct (Nat.eqb _ 0); [done|]. simpl. apply IH.
Qed.

Lemma while_passes maxIterations st :
  (passes (while width height maxIterations st) ≤ maxIterations)%nat.
Proof.
  revert st. induction maxIterations as [|n IH]; intros st.
  - rewrite while_O. by destruct (0 <? remaining st).
  - rewrite while_S. destruct (0 <? remaining st); simpl; [|lia].
    destruct (Nat.eqb _ 0); simpl; [lia|]. specialize (IH (iteration width height st).1).
    lia.
Qed.

(** How the loop is left. *)
Lemma while_way_out maxIterations st :
  let o := while width height maxIterations st in
  match way_out o with
  | Resolved => remaining (final o) ≤ 0
  | CapExhausted => passes o = maxIterations ∧ 0 < remaining (final o)
  | Stuck =>
      ∃ k, passes o = S k ∧
           0 < remaining (after width height k st) ∧
           (iteration width height (after width height k st)).2 = 0%nat
  end.
Proof.
  revert st. induction maxIterations as [|n IH]; intros st; cbv zeta.
  - rewrite while_O. destruct (Z.ltb_spec 0 (remaining st)); simpl; [done|lia].
  - rewrite while_S. destruct (Z.ltb_spec 0 (remaining st)); simpl; [|lia].
    destruct (Nat.eqb_spec (iteration width height st).2 0) as [Hz|Hnz]; simpl.
    + by exists 0%nat.
    + specialize (IH (iteration width height st).1). cbv zeta in IH.
      destruct (way_out _); [done| |].
      * destruct IH as [-> ?]. done.
      * destruct IH as (k & -> & ? & ?). by exists (S k).
Qed.

(** Every pass but the last resolves a pixel. *)
Lemma while_busy maxIterations st k :
  (S k < passes (while width height maxIterations st))%nat →
  (iteration width height (after width height k st)).2 ≠ 0%nat.
Proof.
  revert st k. induction maxIterations as [|n IH]; intros st k.
  - rewrite while_O. destruct (0 <? remaining st); simpl; lia.
  - rewrite while_S. destruct (0 <? remaining st); simpl; [|lia].
    destruct (Nat.eqb_spec (iteration width height st).2 0) as [Hz|Hnz]; simpl; [lia|].
    intros Hk. destruct k as [|k]; [done|]. simpl. apply IH. lia.
Qed.

Lemma after_Inv k st : Inv width height st → Inv width height (after width height k st).
Proof.
  revert st. induction k as [|k IH]; intros st Hinv; [done|].
  simpl. by apply IH, iteration_Inv.
Qed.

Lemma after_S k st :
  after width height (S k) st =
    (iteration width height (after width height k st)).1.
Proof. revert st. induction k as [|k IH]; intros st; [done|]. simpl. apply IH. Qed.

Lemma after_add k m st :
  after width height (k + m) st = after width height m (after width height k st).
Proof. revert st. induction k as [|k IH]; intros st; [done|]. simpl. apply IH. Qed.

Lemma progress_unsolved_r p p' :
  progress p p' → DamagedPixel.solved p' = false →
  DamagedPixel.solved p = false ∧ p' = p.
Proof. by intros [->|[? ->]]. Qed.

Lemma progress_trans p q r : progress p q → progress q r → progress p r.
Proof.
  intros [->|[Hp ->]] [->|[Hq ->]]; unfold progress; auto.
Qed.

Lemma after_progress k st :
  Forall2 progress (damagedPixels st) (damagedPixels (after width height k st)).
Proof.
  revert st. induction k as [|k IH]; intros st.
  - apply Forall_Forall2_diag, Forall_forall. intros p _. by left.
  - simpl. eapply Forall2_trans; [|apply iteration_progress|apply IH].
    apply progress_trans.
Qed.

(** An unsolved record of a later round is an unsolved record now. *)
Lemma after_unsolved k st p :
  p ∈ damagedPixels (after width height k st) → DamagedPixel.solved p = false →
  p ∈ damagedPixels st.
Proof.
  intros Hp Hs. pose proof (after_progress k st) as Hprog.
  apply list_elem_of_lookup in Hp as [n Hn].
  destruct (Forall2_lookup_r _ _ _ _ _ Hprog Hn) as (q & Hq & Hqp).
  apply progress_unsolved_r in Hqp as [_ ->]; [|done].
  apply list_elem_of_lookup. by exists n.
Qed.

(** A solved record stays in place, solved. *)
Lemma after_solved k st p :
  p ∈ damagedPixels st → DamagedPixel.solved p = true →
  p ∈ damagedPixels (after width height k st).
Proof.
  intros Hp Hs. pose proof (after_progress k st) as Hprog.
  apply list_elem_of_lookup in Hp as [n Hn].
  destruct (Forall2_lookup_l _ _ _ _ _ Hprog Hn) as (q & Hq & [->|[? _]]);
    [|congruence].
  apply list_elem_of_lookup. by exists n.
Qed.

(** The loop changes a pixel sample only inside an unsolved record. *)
Lemma after_data_frame k st j :
  (∀ p, p ∈ damagedPixels st → DamagedPixel.solved p = false →
        j < DamagedPixel.i p ∨ DamagedPixel.i p + 3 < j) →
  read (st_data (after width height k st)) j = read (st_data st) j.
Proof.
  revert st. induction k as [|k IH]; intros st Hj; [done|].
  simpl. rewrite IH; [by apply iteration_data_frame|].
  intros p Hp Hs. apply Hj; [|done].
  by apply (after_unsolved 1 st p).
Qed.

(** The loop changes a mask sample only at the alpha of an unsolved
    record. *)
Lemma after_mask_frame k st j :
  (∀ p, p ∈ damagedPixels st → DamagedPixel.solved p = false →
        DamagedPixel.i p + 3 ≠ j) →
  read (st_mask (after width height k st)) j = read (st_mask st) j.
Proof.
  revert st. induction k as [|k IH]; intros st Hj; [done|].
  simpl. rewrite IH; [by apply iteration_mask_frame|].
  intros p Hp Hs. apply Hj; [|done].
  by apply (after_unsolved 1 st p).
Qed.

Lemma after_mask_free k st j :
  gt0 (read (st_mask st) j) = false →
  gt0 (read (st_mask (after width height k st)) j) = false.
Proof.
  revert st. induction k as [|k IH]; intros st Hj; [done|].
  simpl. by apply IH, iteration_mask_free.
Qed.

Lemma after_lengths k st :
  length (st_data (after width height k st)) = length (st_data st) ∧
  length (st_mask (after width height k st)) = length (st_mask st).
Proof.
  revert st. induction k as [|k IH]; intros st; [done|]. simpl.
  destruct (IH (iteration width height st).1) as [-> ->].
  apply iteration_lengths.
Qed.
End loop.

(** * The start of the loop *)

Lemma unsolved_all damagedPixels :
  (∀ p, p ∈ damagedPixels → DamagedPixel.solved p = false) →
  unsolved damagedPixels = damagedPixels.
Proof.
  induction damagedPixels as [|p l IH]; intros H; [done|].
  unfold unsolved in *. simpl. rewrite (H p) by left. simpl.
  f_equal. apply IH. intros q Hq. apply H. by right.
Qed.

Lemma initial_Inv imageData maskData :
  Inv (width imageData) (height imageData) (initial imageData maskData).
Proof.
  split; simpl.
  - apply scan_wf.
  - intros p Hp. by rewrite (scan_masked _ _ _ _ Hp), (scan_unsolved _ _ _ _ Hp).
  - rewrite unsolved_all; [done|]. apply scan_unsolved.
Qed.

(** The variables when [process] returns are those after [passes] rounds. *)
Lemma run_after imageData maskData :
  final (run imageData maskData) =
    after (width imageData) (height imageData)
          (passes (run imageData maskData)) (initial imageData maskData).
Proof. apply while_after. Qed.

Lemma while_resolved width height maxIterations st :
  remaining st ≤ 0 →
  while width height maxIterations st = mkOutcome st 0 Resolved.
Proof.
  intros Hrem. destruct maxIterations; [rewrite while_O|rewrite while_S];
    by destruct (Z.ltb_spec 0 (remaining st)); [lia|].
Qed.

Lemma iteration_remaining width height st :
  remaining (iteration width height st).1 =
    remaining st - Z.of_nat (iteration width height st).2.
Proof. by rewrite iteration_spec. Qed.

(** [remaining] never grows. *)
Lemma after_remaining_le width height k st :
  remaining (after width height k st) ≤ remaining st.
Proof.
  revert st. induction k as [|k IH]; intros st; [done|]. simpl.
  specialize (IH (iteration width height st).1).
  rewrite iteration_remaining in IH. lia.
Qed.

(** The loop is over by the first round at which nothing remains. *)
Lemma while_passes_le width height maxIterations st k :
  remaining (after width height k st) ≤ 0 →
  (passes (while width height maxIterations st) ≤ k)%nat.
Proof.
  revert st k. induction maxIterations as [|n IH]; intros st k Hk.
  - rewrite while_O. destruct (0 <? remaining st); simpl; lia.
  - rewrite while_S. destruct (Z.ltb_spec 0 (remaining st)); simpl; [|lia].
    destruct k as [|k]; [simpl in Hk; lia|].
    destruct (Nat.eqb _ 0); simpl; [lia|].
    specialize (IH (iteration width height st).1 k Hk). lia.
Qed.

(** Round [k + 1] is run exactly when the cap allows it, a record is still
    unsolved after round [k] and none of the rounds before came back
    empty. *)
Lemma while_runs width height maxIterations st k :
  (k < passes (while width height maxIterations st))%nat ↔
  (k < maxIterations)%nat ∧ 0 < remaining (after width height k st) ∧
  ∀ j, (j < k)%nat → (iteration width height (after width height j st)).2 ≠ 0%nat.
Proof.
  revert st k. induction maxIterations as [|n IH]; intros st k.
  - rewrite while_O. destruct (0 <? remaining st); simpl; split; lia.
  - rewrite while_S. destruct (Z.ltb_spec 0 (remaining st)) as [Hpos|Hnone]; simpl.
    + destruct (Nat.eqb_spec (iteration width height st).2 0) as [Hz|Hnz]; simpl.
      * split.
        -- intros Hk. assert (k = 0%nat) as -> by lia.
           split; [lia|]. split; [done|]. intros j Hj. lia.
        -- intros (_ & _ & Hbusy). destruct k as [|k]; [lia|].
           exfalso. apply (Hbusy 0%nat); [lia|done].
      * destruct k as [|k].
        -- split; [|lia]. intros _. split; [lia|]. split; [done|].
           intros j Hj. lia.
        -- rewrite <- Nat.succ_lt_mono, (IH (iteration width height st).1 k).
           rewrite <- Nat.succ_lt_mono. simpl.
           split; intros (Hk & Hrem & Hbusy); (split; [done|]); (split; [done|]).
           ++ intros [|j] Hj; [done|]. simpl. apply Hbusy. lia.
           ++ intros j Hj. apply (Hbusy (S j)). lia.
    + split; [lia|]. intros (_ & Hrem & _).
      pose proof (after_remaining_le width height k st). lia.
Qed.

(** Unless the loop is left by the [break], every round has solved a
    record. *)
Lemma while_not_stuck width height maxIterations st k :
  way_out (while width height maxIterations st) ≠ Stuck →
  (k < passes (while width height maxIterations st))%nat →
  (iteration width height (after width height k st)).2 ≠ 0%nat.
Proof.
  revert st k. induction maxIterations as [|n IH]; intros st k.
  - rewrite while_O. destruct (0 <? remaining st); simpl; lia.
  - rewrite while_S. destruct (0 <? remaining st); simpl; [|lia].
    destruct (Nat.eqb_spec (iteration width height st).2 0) as [Hz|Hnz]; simpl;
      [done|].
    intros Hout Hk. destruct k as [|k]; [done|]. simpl. apply IH; [done|lia].
Qed.

(** A pass in which no record can be solved leaves the variables alone. *)
Lemma iteration_stuck width height st :
  (∀ p, p ∈ damagedPixels st → resolvable width height (st_mask st) p = false) →
  iteration width height st = (st, 0%nat).
Proof.
  intros Hno. unfold iteration. rewrite pass_stuck by done. simpl.
  by destruct st.
Qed.

(** With a mask that marks no pixel of the picture the call changes
    nothing. *)
Lemma run_clean imageData maskData :
  (∀ x y, in_bounds (width imageData) (height imageData) x y →
          masked (data maskData) (offset_of (width imageData) x y) = false) →
  run imageData maskData = mkOutcome (initial imageData maskData) 0 Resolved ∧
  initial imageData maskData = mkState (data imageData) (data maskData) [] 0.
Proof.
  intros Hclean.
  assert (initial imageData maskData = mkState (data imageData) (data maskData) [] 0)
    as Hinit by (unfold initial; by rewrite scan_none).
  split; [|done]. unfold run. apply while_resolved. by rewrite Hinit.
Qed.

Lemma run_way_out imageData maskData :
  match way_out (run imageData maskData) with
  | Resolved => remaining (final (run imageData maskData)) ≤ 0
  | CapExhausted =>
      passes (run imageData maskData) = maxIterations ∧
      0 < remaining (final (run imageData maskData))
  | Stuck =>
      ∃ k, passes (run imageData maskData) = S k ∧
           0 < remaining (after (width imageData) (height imageData) k
                            (initial imageData maskData)) ∧
           (iteration (width imageData) (height imageData)
              (after (width imageData) (height imageData) k
                 (initial imageData maskData))).2 = 0%nat
  end.
Proof.
  exact (while_way_out (width imageData) (height imageData) maxIterations
           (initial imageData maskData)).
Qed.

Lemma run_not_stuck imageData maskData k :
  way_out (run imageData maskData) ≠ Stuck →
  (k < passes (run imageData maskData))%nat →
  (iteration (width imageData) (height imageData)
     (after (width imageData) (height imageData) k
        (initial imageData maskData))).2 ≠ 0%nat.
Proof. unfold run. apply while_not_stuck. Qed.

(** Addresses of samples of two pixels that the mask tells apart. *)
Lemma px_wf_apart width height p i c :
  px_wf width height p → i `mod` 4 = 0 → 0 ≤ c < 4 →
  DamagedPixel.i p ≠ i →
  i + c < DamagedPixel.i p ∨ DamagedPixel.i p + 3 < i + c.
Proof.
  intros [_ Hi] Hmod Hc Hne. unfold offset_of in Hi.
  pose proof (Z.div_mod i 4 ltac:(lia)) as Hdiv. lia.
Qed.

Lemma offset_of_mod width x y : offset_of width x y `mod` 4 = 0.
Proof. unfold offset_of. apply Z.mod_mul. lia. Qed.

(** A sample of the mask changes only where a record ends up solved. *)
Lemma after_mask_frame_solved width height k st j :
  Inv width height st →
  (∀ p, p ∈ damagedPixels (after width height k st) →
        DamagedPixel.solved p = true → DamagedPixel.i p + 3 = j →
        p ∈ damagedPixels st) →
  read (st_mask (after width height k st)) j = read (st_mask st) j.
Proof.
  revert st. induction k as [|k IH]; intros st Hinv Hj; [done|].
  simpl. rewrite IH.
  - rewrite iteration_spec. simpl. apply commit_frame.
    intros sp (q & -> & Hq)%list_elem_of_fmap. simpl. intros Heq.
    apply list_elem_of_In, filter_In in Hq as [Hq Hr]. apply list_elem_of_In in Hq.
    assert (DamagedPixel.solve q ∈ damagedPixels (iteration width height st).1) as Hin.
    { rewrite iteration_spec. simpl. apply list_elem_of_fmap. exists q.
      split; [|done]. unfold resolve. by rewrite Hr. }
    apply (after_solved width height k) in Hin; [|done].
    apply Hj in Hin; [|done..].
    destruct Hinv as [_ Hmasked _].
    pose proof (Hmasked _ Hin) as Hm1. pose proof (Hmasked _ Hq) as Hm2.
    unfold resolvable in Hr. apply andb_true_iff in Hr as [Hr _].
    rewrite Hr in Hm2. simpl in Hm1. congruence.
  - by apply iteration_Inv.
  - intros p Hp Hs Hpj. apply (after_solved width height 1); [|done].
    by apply Hj.
Qed.

(** The commit stores zeros: a mask sample is as before or is 0. *)
Lemma commit_cases solvedThisPass mask remaining j :
  read (commit solvedThisPass mask remaining).1 j = read mask j ∨
  read (commit solvedThisPass mask remaining).1 j = Some 0.
Proof.
  revert mask remaining.
  induction solvedThisPass as [|sp l IH]; intros mask remaining; [by left|].
  rewrite commit_cons.
  destruct (IH (write mask (DamagedPixel.i sp + 3) 0) (remaining - 1)) as [-> | ->];
    [|by right].
  destruct (decide (DamagedPixel.i sp + 3 = j)) as [<-|Hne].
  - rewrite read_write_eq. destruct (read mask _); [by right|by left].
  - left. by apply read_write_ne.
Qed.

Lemma after_mask_cases width height k st j :
  read (st_mask (after width height k st)) j = read (st_mask st) j ∨
  read (st_mask (after width height k st)) j = Some 0.
Proof.
  revert st. induction k as [|k IH]; intros st; [by left|]. simpl.
  destruct (IH (iteration width height st).1) as [-> | ->]; [|by right].
  rewrite iteration_spec. simpl. apply commit_cases.
Qed.

(** Every record of a later round comes from a record at the same
    address. *)
Lemma after_origin width height k st p :
  p ∈ damagedPixels (after width height k st) →
  ∃ p0, p0 ∈ damagedPixels st ∧ DamagedPixel.i p0 = DamagedPixel.i p.
Proof.
  intros Hp. apply list_elem_of_lookup in Hp as [n Hn].
  destruct (Forall2_lookup_r _ _ _ _ _ (after_progress width height k st) Hn)
    as (p0 & Hp0 & Hprog).
  exists p0. split; [apply list_elem_of_lookup; by exists n|].
  by destruct Hprog as [-> | [_ ->]].
Qed.

(** In a call, the mask alpha of a solved record is zero. *)
Lemma solved_alpha_zero imageData maskData k p :
  let st := after (width imageData) (height imageData) k
                  (initial imageData maskData) in
  p ∈ damagedPixels st → DamagedPixel.solved p = true →
  read (st_mask st) (DamagedPixel.i p + 3) = Some 0.
Proof.
  intros st Hp Hs.
  destruct (after_Inv _ _ k _ (initial_Inv imageData maskData)) as [_ Hmasked _].
  specialize (Hmasked p Hp). fold st in Hmasked. rewrite Hs in Hmasked.
  destruct (after_origin _ _ k _ p Hp) as (p0 & Hp0 & Hi).
  apply scan_masked in Hp0. rewrite Hi in Hp0.
  destruct (after_mask_cases (width imageData) (height imageData) k
              (initial imageData maskData) (DamagedPixel.i p + 3)) as [Heq|Heq];
    [|done].
  unfold masked in *. fold st in Heq. rewrite Heq in Hmasked.
  simpl in Hmasked, Hp0. congruence.
Qed.

(** * The pass and its snapshot *)

Section snapshot.
Context (width height : Z) (mask snapshot : list Z).

Lemma visit_coords data p q s d :
  DamagedPixel.x p = DamagedPixel.x q → DamagedPixel.y p = DamagedPixel.y q →
  visit width height data mask p s d = visit width height data mask q s d.
Proof. unfold visit. by intros -> ->. Qed.

Lemma neighbours_coords data p q :
  DamagedPixel.x p = DamagedPixel.x q → DamagedPixel.y p = DamagedPixel.y q →
  neighbours width height data mask p = neighbours width height data mask q.
Proof.
  intros Hx Hy. unfold neighbours. generalize no_sums.
  induction offsets as [|d l IH]; intros s; [done|]. simpl.
  by rewrite (visit_coords data p q s d Hx Hy), IH.
Qed.

Lemma fill_pixel_addr data p q s :
  DamagedPixel.i p = DamagedPixel.i q → fill_pixel data p s = fill_pixel data q s.
Proof. unfold fill_pixel. by intros ->. Qed.

Lemma pass_snapshot_spec damagedPixels data :
  pass_snapshot width height mask snapshot damagedPixels data =
    (fold_left (paint width height mask snapshot) damagedPixels data,
     resolve width height mask <$> damagedPixels,
     DamagedPixel.solve <$> List.filter (resolvable width height mask) damagedPixels).
Proof.
  revert data. induction damagedPixels as [|p rest IH]; intros data; [done|].
  simpl pass_snapshot. simpl fold_left. rewrite fmap_cons. simpl List.filter.
  unfold paint at 2, resolve at 1. rewrite count_of_neighbours.
  assert (resolvable width height mask p =
          negb (DamagedPixel.solved p) &&
          (0 <? free_neighbours width height mask p)) as -> by done.
  destruct (DamagedPixel.solved p); cbn [negb andb].
  - by rewrite IH.
  - destruct (0 <? free_neighbours width height mask p); by rewrite IH.
Qed.

(** Stores at a marked pixel are not seen by the sums. *)
Lemma same_free_fill_pixel data p s :
  px_wf width height p → masked mask (DamagedPixel.i p) = true →
  same_free width height mask data snapshot →
  same_free width height mask (fill_pixel data p s) snapshot.
Proof.
  intros Hwf Hm Hsame x y c Hb Hfree Hc.
  rewrite read_fill_pixel_other; [by apply Hsame|].
  apply (px_wf_apart width height); [done|apply offset_of_mod|done|].
  intros Heq. rewrite Heq in Hm. congruence.
Qed.

(** The pass of the source, which reads the array it is writing, computes
    what the snapshot pass computes. *)
Lemma pass_is_snapshot damagedPixels data :
  Forall (px_wf width height) damagedPixels →
  (∀ p, p ∈ damagedPixels → DamagedPixel.solved p = false →
        masked mask (DamagedPixel.i p) = true) →
  same_free width height mask data snapshot →
  pass width height mask damagedPixels data =
    pass_snapshot width height mask snapshot damagedPixels data.
Proof.
  revert data. induction damagedPixels as [|p rest IH]; intros data Hwf Hm Hsame;
    [done|].
  apply Forall_cons in Hwf as [Hp Hwf].
  assert (∀ q, q ∈ rest → DamagedPixel.solved q = false →
               masked mask (DamagedPixel.i q) = true) as Hm'
    by (intros q Hq; apply Hm; by right).
  rewrite pass_cons. simpl pass_snapshot.
  rewrite (neighbours_same_free _ _ _ data snapshot p Hsame).
  destruct (DamagedPixel.solved p) eqn:Hs; [by rewrite IH|].
  cbv zeta. destruct (0 <? count_of _); [|by rewrite IH].
  rewrite IH; [done..|].
  apply same_free_fill_pixel; [done| |done]. apply Hm; [by left|done].
Qed.

Lemma paint_commute data p q :
  px_wf width height p → px_wf width height q →
  paint width height mask snapshot (paint width height mask snapshot data p) q =
  paint width height mask snapshot (paint width height mask snapshot data q) p.
Proof.
  intros Hp Hq. unfold paint.
  destruct (resolvable width height mask p) eqn:Hrp,
           (resolvable width height mask q) eqn:Hrq; try done.
  destruct (decide (DamagedPixel.i p = DamagedPixel.i q)) as [Heq|Hne].
  - destruct (px_wf_same_pixel width height p q Hp Hq Heq) as [Hx Hy].
    rewrite (neighbours_coords snapshot p q Hx Hy).
    by rewrite !(fill_pixel_addr _ p q _ Heq).
  - apply fill_pixel_commute.
    destruct Hp as [_ Hp], Hq as [_ Hq]. unfold offset_of in *. lia.
Qed.
End snapshot.

Lemma fold_left_Permutation {A B} (f : B → A → B) (l l' : list A) :
  l ≡ₚ l' →
  (∀ a b, a ∈ l → b ∈ l → ∀ d, f (f d a) b = f (f d b) a) →
  ∀ d, fold_left f l d = fold_left f l' d.
Proof.
  induction 1 as [|a l l' Hperm IH|a b l|l l' l'' H1 IH1 H2 IH2];
    intros Hc d; simpl.
  - done.
  - apply IH. intros; apply Hc; by right.
  - f_equal. apply Hc; [by left|by right; left].
  - rewrite IH1 by done. apply IH2.
    intros a b Ha Hb. apply Hc; by rewrite H1.
Qed.

Lemma filter_Permutation {A} (f : A → bool) (l l' : list A) :
  l ≡ₚ l' → List.filter f l ≡ₚ List.filter f l'.
Proof.
  induction 1 as [|a l l' Hperm IH|a b l|l l' l'' H1 IH1 H2 IH2]; simpl.
  - done.
  - destruct (f a); by rewrite IH.
  - destruct (f a), (f b); try done. apply perm_swap.
  - by rewrite IH1.
Qed.

(** * Rounding *)

(** ToUint8Clamp on a quotient in the range of a sample rounds to the
    nearest integer, the even one at a tie, and stays in the range. *)
Lemma ToUint8Clamp_quot_nearest a c :
  0 < c → 0 ≤ a ≤ 255 * c →
  nearest_mean a c (ToUint8Clamp_quot a c) ∧ 0 ≤ ToUint8Clamp_quot a c ≤ 255.
Proof.
  intros Hc Ha. unfold ToUint8Clamp_quot, nearest_mean.
  destruct (Z.leb_spec a 0).
  { assert (a = 0) as -> by lia. rewrite Z.mul_0_r. simpl. lia. }
  destruct (Z.leb_spec (255 * c) a).
  { assert (a = 255 * c) as -> by lia.
    replace (c * 255 - 255 * c) with 0 by lia. simpl. lia. }
  pose proof (Z.div_mod a c ltac:(lia)) as Hdiv.
  pose proof (Z.mod_pos_bound a c Hc) as Hmod.
  assert (0 ≤ a / c) by (apply Z.div_pos; lia).
  assert (a / c < 255) by (apply Z.div_lt_upper_bound; lia).
  set (f := a / c) in *. set (r := a `mod` c) in *. cbv zeta.
  assert (c * f = a - r) as Hcf by lia.
  replace (2 * f * c) with (2 * (c * f)) by lia. rewrite Hcf.
  destruct (Z.ltb_spec (2 * (a - r) + c) (2 * a)).
  { replace (c * (f + 1) - a) with (c - r) by lia. lia. }
  destruct (Z.ltb_spec (2 * a) (2 * (a - r) + c)).
  { replace (c * f - a) with (- r) by lia. lia. }
  destruct (Z.even f) eqn:Heven.
  - replace (c * f - a) with (- r) by lia.
    split; [|lia]. split; [lia|]. by rewrite Heven.
  - replace (c * (f + 1) - a) with (c - r) by lia.
    split; [|lia]. split; [lia|]. intros _.
    rewrite Z.add_1_r, Z.even_succ, <- Z.negb_even, Heven. done.
Qed.

(** Only one integer is the nearest mean. *)
Lemma nearest_mean_unique sum count v1 v2 :
  0 < count → nearest_mean sum count v1 → nearest_mean sum count v2 → v1 = v2.
Proof.
  unfold nearest_mean. intros Hc [H1 E1] [H2 E2].
  destruct (decide (v1 = v2)) as [|Hne]; [done|].
  assert (v2 = v1 + 1 ∨ v1 = v2 + 1) as [-> | ->] by nia.
  - assert (2 * Z.abs (count * v1 - sum) = count) as T1 by lia.
    assert (2 * Z.abs (count * (v1 + 1) - sum) = count) as T2 by lia.
    specialize (E1 T1). specialize (E2 T2).
    rewrite Z.add_1_r, Z.even_succ, <- Z.negb_even, E1 in E2. done.
  - assert (2 * Z.abs (count * v2 - sum) = count) as T2 by lia.
    assert (2 * Z.abs (count * (v2 + 1) - sum) = count) as T1 by lia.
    specialize (E1 T1). specialize (E2 T2).
    rewrite Z.add_1_r, Z.even_succ, <- Z.negb_even, E2 in E1. done.
Qed.

(** * Sums over given neighbours *)

Section given_neighbours.
Context (width height : Z) (data mask : list Z) (p : px).

Lemma neighbours_eq :
  neighbours width height data mask p =
    fold_left
      (fun s d => if contributes width height mask p d
                  then gather width data p s d else s)
      offsets no_sums.
Proof.
  unfold neighbours. generalize no_sums.
  induction offsets as [|d l IH]; intros s; [done|]. simpl.
  by rewrite visit_eq, IH.
Qed.

Lemma contributes_self : contributes width height mask p (0, 0) = false.
Proof. reflexivity. Qed.

Lemma contributes_outside d :
  ¬ in_bounds width height (DamagedPixel.x p + d.1) (DamagedPixel.y p + d.2) →
  contributes width height mask p d = false.
Proof.
  intros Hout. destruct (contributes width height mask p d) eqn:Hc; [|done].
  by apply contributes_in_bounds in Hc as [? _].
Qed.

Lemma contributes_free d :
  d.1 ≠ 0 ∨ d.2 ≠ 0 →
  in_bounds width height (DamagedPixel.x p + d.1) (DamagedPixel.y p + d.2) →
  masked mask (offset_of width (DamagedPixel.x p + d.1) (DamagedPixel.y p + d.2))
    = false →
  contributes width height mask p d = true.
Proof.
  intros Hd [Hx Hy] Hm. unfold contributes. rewrite Hm.
  rewrite !andb_true_iff, negb_true_iff, andb_false_iff, !Z.eqb_neq,
    !Z.leb_le, !Z.ltb_lt.
  repeat split; lia || done.
Qed.

Lemma gather_pixel d c r g b n :
  pixel_is data
    (offset_of width (DamagedPixel.x p + d.1) (DamagedPixel.y p + d.2)) c →
  gather width data p (Num r, Num g, Num b, n) d =
    (Num (r + red c), Num (g + green c), Num (b + blue c), n + 1).
Proof. intros (Hr & Hg & Hb). unfold gather. simpl. by rewrite Hr, Hg, Hb. Qed.
End given_neighbours.

(** A sample below a present sample is present. *)
Lemma read_is_Some_below arr j k v :
  read arr j = Some v → 0 ≤ k ≤ j → is_Some (read arr k).
Proof.
  unfold read. intros Hj Hk.
  destruct (Z.ltb_spec j 0); [done|]. destruct (Z.ltb_spec k 0); [lia|].
  apply lookup_lt_Some in Hj. apply lookup_lt_is_Some_2. lia.
Qed.

(** The call on a mask with one resolvable record. *)
Lemma run_one_pixel imageData maskData p s :
  scan (width imageData) (height imageData) (data maskData) = [p] →
  DamagedPixel.solved p = false →
  neighbours (width imageData) (height imageData) (data imageData)
             (data maskData) p = s →
  0 < count_of s →
  run imageData maskData =
    mkOutcome
      (mkState (fill_pixel (data imageData) p s)
               (write (data maskData) (DamagedPixel.i p + 3) 0)
               [DamagedPixel.solve p] 0)
      1 Resolved.
Proof.
  intros Hscan Hs Hsum Hcount. unfold run, maxIterations, initial.
  rewrite Hscan, while_S. simpl remaining. simpl (0 <? _).
  unfold iteration. simpl st_mask. simpl st_data. simpl damagedPixels.
  rewrite pass_cons, Hs. cbv zeta. rewrite Hsum.
  destruct (Z.ltb_spec 0 (count_of s)); [|lia]. reflexivity.
Qed.

Ltac in_picture := unfold in_bounds; simpl; lia.

(** The guard of the neighbour at offset [d], which is pixel [(nx, ny)]. *)
Ltac free_at Hmask d nx ny :=
  rewrite (contributes_free _ _ _ _ d);
  [| simpl; lia | in_picture | exact (Hmask nx ny ltac:(in_picture))].

Ltac outside_at d :=
  rewrite (contributes_outside _ _ _ _ d) by in_picture.

(** * The claims *)

(** C1 as stated fails: on objects of different dimensions the call is
    fulfilled, not rejected, and it has written into both arrays. *)
Lemma process_accepts_mismatch :
  invalid_input mismatched_image mismatched_mask ∧
  process mismatched_image mismatched_mask
    = Fulfilled (mkImageData 1 2 [1; 2; 3; 4; 1; 2; 3; 255]) ∧
  image_after mismatched_image mismatched_mask ≠ mismatched_image ∧
  mask_after mismatched_image mismatched_mask ≠ mismatched_mask.
Proof.
  split; [left; simpl; lia|]. split; [reflexivity|].
  split; intros H; by vm_compute in H.
Qed.

(** C1, amended. The call validates nothing and never fails, whatever the
    dimensions and the lengths: the promise is fulfilled with the picture,
    whose dimensions and length are as before; the mask keeps its length;
    and the mask's own width and height are never read, both arrays being
    addressed with the width and height of the picture. *)
Theorem process_never_rejects imageData maskData :
  process imageData maskData = Fulfilled (image_after imageData maskData) ∧
  (∀ reason, process imageData maskData ≠ Rejected reason) ∧
  width (image_after imageData maskData) = width imageData ∧
  height (image_after imageData maskData) = height imageData ∧
  length (data (image_after imageData maskData)) = length (data imageData) ∧
  length (data (mask_after imageData maskData)) = length (data maskData) ∧
  (∀ width' height',
     run imageData (mkImageData width' height' (data maskData))
       = run imageData maskData).
Proof.
  split; [done|]. split; [done|]. split; [done|]. split; [done|].
  unfold image_after, mask_after. simpl data. rewrite run_after.
  destruct (after_lengths (width imageData) (height imageData)
              (passes (run imageData maskData)) (initial imageData maskData))
    as [-> ->].
  split; [done|]. split; [done|].
  intros width' height'. unfold run, initial. by cbn [data width height].
Qed.

Lemma process_never_rejects_witness :
  length (data (image_after mismatched_image mismatched_mask)) = 8%nat.
Proof.
  pose proof (process_never_rejects mismatched_image mismatched_mask)
    as (_ & _ & _ & _ & H & _).
  exact H.
Defined.

(** C2 as stated fails. In [uneven_image] the mask marks the centre pixel
    only and the green samples of the eight neighbours add up to 167; the
    green sample stored at the centre is 21, which is neither the exact
    mean 167 / 8 nor that mean truncated. *)
Lemma isolated_pixel_not_exact :
  let centre := DamagedPixel.mk 1 1 16 false in
  scan 3 3 (data centre_mask) = [centre] ∧
  neighbours 3 3 (data uneven_image) (data centre_mask) centre
    = (Num 81, Num 167, Num 241, 8) ∧
  read (data (image_after uneven_image centre_mask)) 17 = Some 21 ∧
  8 * 21 ≠ 167 ∧
  21 ≠ 167 / 8.
Proof. by vm_compute. Qed.

(** C2, amended. In a 3 by 3 picture whose mask marks the centre pixel only
    and whose eight other pixels have colours [C x y], the call runs one
    pass, after which no record is unsolved; the red, green and blue
    samples of the centre are the means of the eight colours rounded to
    the nearest integer, to the even one at a tie, hence the exact means
    whenever the sums are multiples of 8; and its alpha sample is 255. *)
Theorem isolated_pixel_mean imageData maskData (C : Z → Z → rgb) :
  width imageData = 3 → height imageData = 3 →
  (∀ x y, in_bounds 3 3 x y →
     masked (data maskData) (offset_of 3 x y) = (x =? 1) && (y =? 1)) →
  (∀ x y, in_bounds 3 3 x y → (x, y) ≠ (1, 1) →
     pixel_is (data imageData) (offset_of 3 x y) (C x y) ∧ byte_rgb (C x y)) →
  let sum (channel : rgb → Z) :=
    channel (C 0 0) + channel (C 1 0) + channel (C 2 0) +
    channel (C 0 1) + channel (C 2 1) +
    channel (C 0 2) + channel (C 1 2) + channel (C 2 2) in
  let o := run imageData maskData in
  let data' := data (image_after imageData maskData) in
  ∃ r g b,
    read data' 16 = Some r ∧ read data' 17 = Some g ∧ read data' 18 = Some b ∧
    nearest_mean (sum red) 8 r ∧
    nearest_mean (sum green) 8 g ∧
    nearest_mean (sum blue) 8 b ∧
    (∀ m, sum red = 8 * m → r = m) ∧
    (∀ m, sum green = 8 * m → g = m) ∧
    (∀ m, sum blue = 8 * m → b = m) ∧
    read data' 19 = Some 255 ∧
    passes o = 1%nat ∧ way_out o = Resolved ∧ remaining (final o) = 0.
Proof.
  intros Hw Hh Hmask Hcol sum o data'.
  set (p := DamagedPixel.mk 1 1 16 false).
  destruct (Hcol 0 0) as [P00 B00]; [in_picture|done|].
  destruct (Hcol 1 0) as [P10 B10]; [in_picture|done|].
  destruct (Hcol 2 0) as [P20 B20]; [in_picture|done|].
  destruct (Hcol 0 1) as [P01 B01]; [in_picture|done|].
  destruct (Hcol 2 1) as [P21 B21]; [in_picture|done|].
  destruct (Hcol 0 2) as [P02 B02]; [in_picture|done|].
  destruct (Hcol 1 2) as [P12 B12]; [in_picture|done|].
  destruct (Hcol 2 2) as [P22 B22]; [in_picture|done|].
  assert (scan 3 3 (data maskData) = [p]) as Hscan.
  { apply (scan_one 3 3 _ 1 1); [in_picture|by rewrite Hmask by in_picture|].
    intros x y Hb Hne. rewrite Hmask by done.
    destruct (Z.eqb_spec x 1), (Z.eqb_spec y 1); try done. by subst. }
  assert (neighbours 3 3 (data imageData) (data maskData) p
          = (Num (sum red), Num (sum green), Num (sum blue), 8)) as Hsum.
  { rewrite neighbours_eq. unfold offsets. cbn [flat_map map app fold_left].
    rewrite contributes_self.
    free_at Hmask (-1, -1) 0 0. free_at Hmask (0, -1) 1 0.
    free_at Hmask (1, -1) 2 0. free_at Hmask (-1, 0) 0 1.
    free_at Hmask (1, 0) 2 1. free_at Hmask (-1, 1) 0 2.
    free_at Hmask (0, 1) 1 2. free_at Hmask (1, 1) 2 2.
    cbv beta iota. unfold no_sums.
    rewrite (gather_pixel 3 _ p (-1, -1) (C 0 0) _ _ _ _ P00).
    rewrite (gather_pixel 3 _ p (0, -1) (C 1 0) _ _ _ _ P10).
    rewrite (gather_pixel 3 _ p (1, -1) (C 2 0) _ _ _ _ P20).
    rewrite (gather_pixel 3 _ p (-1, 0) (C 0 1) _ _ _ _ P01).
    rewrite (gather_pixel 3 _ p (1, 0) (C 2 1) _ _ _ _ P21).
    rewrite (gather_pixel 3 _ p (-1, 1) (C 0 2) _ _ _ _ P02).
    rewrite (gather_pixel 3 _ p (0, 1) (C 1 2) _ _ _ _ P12).
    rewrite (gather_pixel 3 _ p (1, 1) (C 2 2) _ _ _ _ P22).
    subst sum. cbv beta. repeat f_equal; lia. }
  pose proof (run_one_pixel imageData maskData p
                (Num (sum red), Num (sum green), Num (sum blue), 8)) as Hrun.
  rewrite Hw, Hh in Hrun. specialize (Hrun Hscan eq_refl Hsum eq_refl).
  subst o data'. unfold image_after. rewrite Hrun.
  cbn [final st_data data passes way_out remaining].
  destruct (read_fill_pixel (data imageData) p
              (Num (sum red)) (Num (sum green)) (Num (sum blue)) 8)
    as (R0 & R1 & R2 & R3).
  change (DamagedPixel.i p) with 16 in R0, R1, R2, R3.
  change (16 + 1) with 17 in R1. change (16 + 2) with 18 in R2.
  change (16 + 3) with 19 in R3. cbn [quot_sample] in R0, R1, R2.
  destruct P22 as (_ & _ & Hlast). change (offset_of 3 2 2 + 2) with 34 in Hlast.
  destruct (read_is_Some_below _ _ 16 _ Hlast ltac:(lia)) as [v0 E0].
  destruct (read_is_Some_below _ _ 17 _ Hlast ltac:(lia)) as [v1 E1].
  destruct (read_is_Some_below _ _ 18 _ Hlast ltac:(lia)) as [v2 E2].
  destruct (read_is_Some_below _ _ 19 _ Hlast ltac:(lia)) as [v3 E3].
  rewrite E0 in R0. rewrite E1 in R1. rewrite E2 in R2. rewrite E3 in R3.
  unfold byte_rgb in *.
  destruct (ToUint8Clamp_quot_nearest (sum red) 8) as [Nr _];
    [lia|unfold sum; lia|].
  destruct (ToUint8Clamp_quot_nearest (sum green) 8) as [Ng _];
    [lia|unfold sum; lia|].
  destruct (ToUint8Clamp_quot_nearest (sum blue) 8) as [Nb _];
    [lia|unfold sum; lia|].
  exists (ToUint8Clamp_quot (sum red) 8), (ToUint8Clamp_quot (sum green) 8),
         (ToUint8Clamp_quot (sum blue) 8).
  repeat (split; [done|]).
  assert (∀ s v m, nearest_mean s 8 v → s = 8 * m → v = m) as Hexact
    by (unfold nearest_mean; intros s v m [Hn _] ->; lia).
  split; [intros m; by apply Hexact|].
  split; [intros m; by apply Hexact|].
  split; [intros m; by apply Hexact|].
  done.
Qed.

Lemma isolated_pixel_mean_witness :
  ∃ g, read (data (image_after uneven_image centre_mask)) 17 = Some g ∧
       nearest_mean 167 8 g.
Proof.
  pose (C := fun x y : Z =>
    if (x =? 2) && (y =? 2) then (11, 27, 30)
    else if (x =? 1) && (y =? 2) then (10, 20, 31) else (10, 20, 30)).
  assert (∀ x y, in_bounds 3 3 x y →
            (x = 0 ∨ x = 1 ∨ x = 2) ∧ (y = 0 ∨ y = 1 ∨ y = 2)) as Hcases
    by (unfold in_bounds; lia).
  destruct (isolated_pixel_mean uneven_image centre_mask C)
    as (r & g & b & _ & Hg & _ & _ & Ng & _); [reflexivity..| | |].
  - intros x y Hb.
    destruct (Hcases x y Hb) as [[-> | [-> | ->]] [-> | [-> | ->]]]; reflexivity.
  - intros x y Hb Hne. unfold byte_rgb, red, green, blue.
    destruct (Hcases x y Hb) as [[-> | [-> | ->]] [-> | [-> | ->]]];
      try done; (split; [by vm_compute|cbv [red green blue fst snd]; lia]).
  - exists g. by split.
Defined.

(** C3 as stated fails: the corner of a picture one pixel wide has no
    pixel to its right and none on its diagonal; one neighbour is counted,
    not three, and the corner takes the colour of the pixel below it. *)
Lemma corner_with_one_neighbour :
  let corner := DamagedPixel.mk 0 0 0 false in
  scan 1 2 (data narrow_mask) = [corner] ∧
  ¬ in_bounds 1 2 1 0 ∧ ¬ in_bounds 1 2 1 1 ∧
  count_of (neighbours 1 2 (data narrow_image) (data narrow_mask) corner) = 1 ∧
  data (image_after narrow_image narrow_mask) = [10; 20; 30; 255; 10; 20; 30; 255].
Proof.
  repeat split; try reflexivity; unfold in_bounds; lia.
Qed.

(** C3, amended. In a picture at least two pixels wide and two high whose
    mask marks the top-left pixel only, the three neighbours inside the
    picture (right, below, diagonal) are the ones counted: the corner gets
    the means of their colours, rounded to the nearest integer and to the
    even one at a tie, and alpha 255, and no record is left unsolved. For
    any record, an offset that leaves the picture is not counted, adds
    nothing to the sums, and the call is fulfilled all the same. *)
Theorem corner_pixel_mean imageData maskData (w h : Z)
    (right below diagonal : rgb) :
  width imageData = w → height imageData = h → 2 ≤ w → 2 ≤ h →
  (∀ x y, in_bounds w h x y →
     masked (data maskData) (offset_of w x y) = (x =? 0) && (y =? 0)) →
  pixel_is (data imageData) (offset_of w 1 0) right → byte_rgb right →
  pixel_is (data imageData) (offset_of w 0 1) below → byte_rgb below →
  pixel_is (data imageData) (offset_of w 1 1) diagonal → byte_rgb diagonal →
  let sum (channel : rgb → Z) := channel right + channel below + channel diagonal in
  let corner := DamagedPixel.mk 0 0 0 false in
  let data' := data (image_after imageData maskData) in
  (∀ p d pixels s,
     ¬ in_bounds w h (DamagedPixel.x p + d.1) (DamagedPixel.y p + d.2) →
     contributes w h (data maskData) p d = false ∧
     visit w h pixels (data maskData) p s d = s) ∧
  scan w h (data maskData) = [corner] ∧
  neighbours w h (data imageData) (data maskData) corner
    = (Num (sum red), Num (sum green), Num (sum blue), 3) ∧
  (∃ r g b,
     read data' 0 = Some r ∧ read data' 1 = Some g ∧ read data' 2 = Some b ∧
     nearest_mean (sum red) 3 r ∧
     nearest_mean (sum green) 3 g ∧
     nearest_mean (sum blue) 3 b) ∧
  read data' 3 = Some 255 ∧
  remaining (final (run imageData maskData)) = 0 ∧
  process imageData maskData = Fulfilled (image_after imageData maskData).
Proof.
  intros Hw Hh Hw2 Hh2 Hmask Pr Br Pb Bb Pd Bd sum corner data'.
  split.
  { intros p d dat s Hout.
    pose proof (contributes_outside w h (data maskData) p d Hout) as Hc.
    split; [done|]. by rewrite visit_eq, Hc. }
  assert (scan w h (data maskData) = [corner]) as Hscan.
  { apply (scan_one w h _ 0 0); [in_picture|by rewrite Hmask by in_picture|].
    intros x y Hb Hne. rewrite Hmask by done.
    destruct (Z.eqb_spec x 0), (Z.eqb_spec y 0); try done. by subst. }
  assert (neighbours w h (data imageData) (data maskData) corner
          = (Num (sum red), Num (sum green), Num (sum blue), 3)) as Hsum.
  { rewrite neighbours_eq. unfold offsets. cbn [flat_map map app fold_left].
    rewrite contributes_self.
    outside_at (-1, -1). outside_at (0, -1). outside_at (1, -1).
    outside_at (-1, 0). outside_at (-1, 1).
    free_at Hmask (1, 0) 1 0. free_at Hmask (0, 1) 0 1. free_at Hmask (1, 1) 1 1.
    cbv beta iota. unfold no_sums.
    rewrite (gather_pixel w _ corner (1, 0) right _ _ _ _ Pr).
    rewrite (gather_pixel w _ corner (0, 1) below _ _ _ _ Pb).
    rewrite (gather_pixel w _ corner (1, 1) diagonal _ _ _ _ Pd).
    subst sum. cbv beta. repeat f_equal; lia. }
  split; [done|]. split; [done|].
  pose proof (run_one_pixel imageData maskData corner
                (Num (sum red), Num (sum green), Num (sum blue), 3)) as Hrun.
  rewrite Hw, Hh in Hrun. specialize (Hrun Hscan eq_refl Hsum eq_refl).
  destruct (read_fill_pixel (data imageData) corner
              (Num (sum red)) (Num (sum green)) (Num (sum blue)) 3)
    as (R0 & R1 & R2 & R3).
  change (DamagedPixel.i corner) with 0 in R0, R1, R2, R3.
  change (0 + 1) with 1 in R1. change (0 + 2) with 2 in R2.
  change (0 + 3) with 3 in R3. cbn [quot_sample] in R0, R1, R2.
  destruct Pd as (_ & _ & Hlast).
  assert (12 ≤ offset_of w 1 1) by (unfold offset_of; lia).
  destruct (read_is_Some_below _ _ 0 _ Hlast ltac:(lia)) as [v0 E0].
  destruct (read_is_Some_below _ _ 1 _ Hlast ltac:(lia)) as [v1 E1].
  destruct (read_is_Some_below _ _ 2 _ Hlast ltac:(lia)) as [v2 E2].
  destruct (read_is_Some_below _ _ 3 _ Hlast ltac:(lia)) as [v3 E3].
  rewrite E0 in R0. rewrite E1 in R1. rewrite E2 in R2. rewrite E3 in R3.
  unfold byte_rgb in *.
  destruct (ToUint8Clamp_quot_nearest (sum red) 3) as [Nr _];
    [lia|unfold sum; lia|].
  destruct (ToUint8Clamp_quot_nearest (sum green) 3) as [Ng _];
    [lia|unfold sum; lia|].
  destruct (ToUint8Clamp_quot_nearest (sum blue) 3) as [Nb _];
    [lia|unfold sum; lia|].
  split; [|split; [|split; [|reflexivity]]];
    subst data'; unfold image_after; rewrite Hrun;
    cbn [final st_data data passes way_out remaining]; [|done..].
  by exists (ToUint8Clamp_quot (sum red) 3), (ToUint8Clamp_quot (sum green) 3),
            (ToUint8Clamp_quot (sum blue) 3).
Qed.

Lemma corner_pixel_mean_witness :
  let imageData := mkImageData 2 2
    [1; 2; 3; 4;  10; 20; 30; 255;  20; 40; 60; 255;  30; 61; 91; 255] in
  let maskData := mkImageData 2 2
    [0; 0; 0; 255;  0; 0; 0; 0;  0; 0; 0; 0;  0; 0; 0; 0] in
  read (data (image_after imageData maskData)) 3 = Some 255.
Proof.
  intros imageData maskData.
  assert (∀ x y, in_bounds 2 2 x y → (x = 0 ∨ x = 1) ∧ (y = 0 ∨ y = 1)) as Hcases
    by (unfold in_bounds; lia).
  assert (∀ c, 0 ≤ red c ≤ 255 → 0 ≤ green c ≤ 255 → 0 ≤ blue c ≤ 255 →
               byte_rgb c) as Hbyte by (by unfold byte_rgb).
  apply (corner_pixel_mean imageData maskData 2 2
           (10, 20, 30) (20, 40, 60) (30, 61, 91));
    [reflexivity|reflexivity|lia|lia| |
     by vm_compute|apply Hbyte; cbv [red green blue fst snd]; lia|
     by vm_compute|apply Hbyte; cbv [red green blue fst snd]; lia|
     by vm_compute|apply Hbyte; cbv [red green blue fst snd]; lia].
  intros x y Hb. destruct (Hcases x y Hb) as [[-> | ->] [-> | ->]]; reflexivity.
Defined.

(** C4. In a picture of at least one pixel whose mask marks every pixel,
    the first pass solves no record and the loop is left through the
    [break] of line 96 after that one pass; [remaining] is the number of
    pixels [width * height] before and after, and both arrays come back as
    they were. *)
Theorem process_fully_damaged imageData maskData :
  let w := width imageData in
  let h := height imageData in
  0 < w → 0 < h →
  (∀ x y, in_bounds w h x y → masked (data maskData) (offset_of w x y) = true) →
  let o := run imageData maskData in
  way_out o = Stuck ∧
  passes o = 1%nat ∧
  (iteration w h (initial imageData maskData)).2 = 0%nat ∧
  remaining (initial imageData maskData) = w * h ∧
  remaining (final o) = w * h ∧
  image_after imageData maskData = imageData ∧
  mask_after imageData maskData = maskData.
Proof.
  intros w h Hw Hh Hall o.
  set (st0 := initial imageData maskData).
  assert (remaining st0 = w * h) as Hrem.
  { subst st0. unfold initial. simpl. rewrite scan_all by done. nia. }
  assert (iteration w h st0 = (st0, 0%nat)) as Hit.
  { apply iteration_stuck. intros p _. unfold resolvable.
    rewrite <- (count_of_neighbours w h (st_mask st0) (st_data st0)).
    subst st0. simpl st_mask. rewrite neighbours_all_masked by done.
    apply andb_false_r. }
  assert (o = mkOutcome st0 1 Stuck) as Ho.
  { subst o. unfold run, maxIterations. fold w h st0. rewrite while_S, Hit.
    destruct (Z.ltb_spec 0 (remaining st0)); [done|nia]. }
  rewrite Ho, Hit. simpl. repeat split; try done.
  - unfold image_after. fold o. rewrite Ho. simpl. by destruct imageData.
  - unfold mask_after. fold o. rewrite Ho. simpl. by destruct maskData.
Qed.

Lemma process_fully_damaged_witness :
  let imageData := mkImageData 2 1 [1; 2; 3; 4; 5; 6; 7; 8] in
  let maskData := mkImageData 2 1 [0; 0; 0; 7; 0; 0; 0; 200] in
  way_out (run imageData maskData) = Stuck.
Proof.
  intros imageData maskData.
  apply (process_fully_damaged imageData maskData); [done..|].
  intros x y [Hx Hy]. simpl in *.
  assert (y = 0) as -> by lia.
  assert (x = 0 ∨ x = 1) as [-> | ->] by lia; reflexivity.
Defined.

(** C5. In every round of every call, and for every order in which the
    [for k] loop might visit the records: the pass computes each sum on the
    arrays as it found them; the records it solves are still marked in the
    mask it reads, so none of them is counted as a neighbour by any record
    of the pass; and the order changes neither the pixel array that the
    pass leaves nor the set of records it solves. *)
Theorem pass_one_snapshot imageData maskData k order :
  let w := width imageData in
  let h := height imageData in
  let st := after w h k (initial imageData maskData) in
  let mask := st_mask st in
  let data := st_data st in
  order ≡ₚ damagedPixels st →
  pass w h mask order data = pass_snapshot w h mask data order data ∧
  (∀ sp, sp ∈ (pass w h mask order data).2 →
         masked mask (DamagedPixel.i sp) = true) ∧
  (∀ sp p d, sp ∈ (pass w h mask order data).2 →
     DamagedPixel.i sp
       = offset_of w (DamagedPixel.x p + d.1) (DamagedPixel.y p + d.2) →
     contributes w h mask p d = false) ∧
  (pass w h mask order data).1.1 = (pass w h mask (damagedPixels st) data).1.1 ∧
  (pass w h mask order data).1.2 ≡ₚ (pass w h mask (damagedPixels st) data).1.2 ∧
  (pass w h mask order data).2 ≡ₚ (pass w h mask (damagedPixels st) data).2.
Proof.
  intros w h st mask data Hperm.
  destruct (after_Inv w h k _ (initial_Inv imageData maskData)) as [Hwf Hmasked _].
  fold st in Hwf, Hmasked. fold mask in Hmasked.
  assert (∀ p, p ∈ damagedPixels st → DamagedPixel.solved p = false →
               masked mask (DamagedPixel.i p) = true) as Hm
    by (intros p Hp Hs; by rewrite (Hmasked p Hp), Hs).
  assert (Forall (px_wf w h) order) as Hwf' by by rewrite Hperm.
  assert (∀ p, p ∈ order → DamagedPixel.solved p = false →
               masked mask (DamagedPixel.i p) = true) as Hm'
    by (intros p Hp; apply Hm; by rewrite <- Hperm).
  assert (∀ sp, sp ∈ (pass w h mask order data).2 →
                masked mask (DamagedPixel.i sp) = true) as Hstill.
  { intros sp. rewrite pass_solved.
    intros (q & -> & Hq)%list_elem_of_fmap.
    apply list_elem_of_In, filter_In in Hq as [Hq Hr]. apply list_elem_of_In in Hq.
    apply (Hm' q); [done|]. unfold resolvable in Hr.
    apply andb_true_iff in Hr as [Hr _]. by apply negb_true_iff. }
  rewrite (pass_is_snapshot w h mask data order data),
          (pass_is_snapshot w h mask data (damagedPixels st) data)
    in * by (done || apply same_free_refl).
  rewrite !pass_snapshot_spec in *. simpl.
  split; [done|]. split; [done|]. split; [|split; [|split]].
  - intros sp p d Hsp Hi. destruct (contributes w h mask p d) eqn:Hc; [|done].
    apply contributes_in_bounds in Hc as [_ Hc].
    rewrite <- Hi, (Hstill sp Hsp) in Hc. done.
  - apply fold_left_Permutation; [done|].
    intros p q Hp Hq d. rewrite Forall_forall in Hwf'.
    apply paint_commute; by apply Hwf'.
  - by rewrite Hperm.
  - by rewrite (filter_Permutation _ _ _ Hperm).
Qed.

Lemma pass_one_snapshot_witness :
  let imageData := mkImageData 3 1 [10; 20; 30; 255; 1; 2; 3; 4; 5; 6; 7; 8] in
  let maskData := mkImageData 3 1 [0; 0; 0; 0; 0; 0; 0; 9; 0; 0; 0; 200] in
  (pass 3 1 (data maskData)
     [DamagedPixel.mk 2 0 8 false; DamagedPixel.mk 1 0 4 false]
     (data imageData)).1.1
  = [10; 20; 30; 255; 10; 20; 30; 255; 5; 6; 7; 8].
Proof.
  intros imageData maskData.
  pose proof (pass_one_snapshot imageData maskData 0
                [DamagedPixel.mk 2 0 8 false; DamagedPixel.mk 1 0 4 false])
    as H.
  cbv zeta in H. destruct H as (_ & _ & _ & H & _).
  - apply perm_swap.
  - exact H.
Defined.

(** C6. Every record is pushed with [solved = false]; a round of the loop
    leaves a record as it is or takes it from unsolved to solved, never
    back; at the end of a round the mask alpha of every solved record is off;
    and a record that is solved at some round stays in place in every later
    round with its mask alpha off and the four samples of its pixel as they
    are. The rounds the call goes through are the first [passes] ones. *)
Theorem solved_once imageData maskData k :
  let w := width imageData in
  let h := height imageData in
  let st0 := initial imageData maskData in
  let st := after w h k st0 in
  let st' := after w h (S k) st0 in
  (∀ p, p ∈ damagedPixels st0 → DamagedPixel.solved p = false) ∧
  Forall2 progress (damagedPixels st) (damagedPixels st') ∧
  (∀ p, p ∈ damagedPixels st' → DamagedPixel.solved p = true →
        read (st_mask st') (DamagedPixel.i p + 3) = Some 0) ∧
  (∀ p m, p ∈ damagedPixels st → DamagedPixel.solved p = true →
     let st_m := after w h (k + m) st0 in
     p ∈ damagedPixels st_m ∧
     read (st_mask st_m) (DamagedPixel.i p + 3) = Some 0 ∧
     ∀ c, 0 ≤ c < 4 →
       read (st_data st_m) (DamagedPixel.i p + c)
         = read (st_data st) (DamagedPixel.i p + c)) ∧
  final (run imageData maskData) = after w h (passes (run imageData maskData)) st0.
Proof.
  intros w h st0 st st'.
  pose proof (initial_Inv imageData maskData) as Hinv0. fold w h st0 in Hinv0.
  split; [apply scan_unsolved|].
  split; [subst st st'; rewrite after_S; apply iteration_progress|].
  split; [intros p Hp Hs; by apply (solved_alpha_zero imageData maskData (S k))|].
  split; [|apply run_after].
  intros p m Hp Hs st_m.
  pose proof (after_Inv w h k st0 Hinv0) as Hinv. fold st in Hinv.
  pose proof (after_solved w h m st p Hp Hs) as Hin.
  assert (p ∈ damagedPixels st_m) as Hin'
    by (subst st_m; rewrite after_add; exact Hin).
  split; [done|]. split.
  - by apply (solved_alpha_zero imageData maskData (k + m)).
  - subst st_m. rewrite after_add. fold st. intros c Hc.
    apply after_data_frame. intros q Hq Hqs.
    destruct Hinv as [Hwf Hmasked _]. rewrite Forall_forall in Hwf.
    pose proof (Hmasked p Hp) as Hmp. pose proof (Hmasked q Hq) as Hmq.
    rewrite Hs in Hmp. rewrite Hqs in Hmq.
    apply (px_wf_apart w h); [by apply Hwf| |done|].
    + destruct (Hwf p Hp) as [_ ->]. apply offset_of_mod.
    + intros Heq. rewrite Heq in Hmq. simpl in *. congruence.
Qed.

Lemma solved_once_witness :
  let imageData := mkImageData 3 1 [10; 20; 30; 255; 1; 2; 3; 4; 5; 6; 7; 8] in
  let maskData := mkImageData 3 1 [0; 0; 0; 0; 0; 0; 0; 9; 0; 0; 0; 200] in
  read (st_mask (after 3 1 1 (initial imageData maskData))) 7 = Some 0.
Proof.
  intros imageData maskData.
  pose proof (solved_once imageData maskData 0) as (_ & _ & Hcleared & _).
  apply (Hcleared (DamagedPixel.mk 1 0 4 true)); [|reflexivity].
  vm_compute. left.
Defined.

(** C7. For every input the call returns: the loop runs at most 500 passes,
    and it stops before the cap exactly when no unsolved record is left or
    when a pass has solved nothing; every pass before the last one solves a
    record.  No pass is run once no record is left unsolved: pass [k + 1]
    is run exactly when [k] is below the cap, a record is still unsolved
    after [k] rounds and none of the rounds before has come back empty.
    Only a pass that ends in the [break] solves nothing. *)
Theorem process_terminates imageData maskData :
  let w := width imageData in
  let h := height imageData in
  let st0 := initial imageData maskData in
  let o := run imageData maskData in
  process imageData maskData = Fulfilled (image_after imageData maskData) ∧
  (passes o ≤ 500)%nat ∧
  final o = after w h (passes o) st0 ∧
  (∀ k, (S k < passes o)%nat → (iteration w h (after w h k st0)).2 ≠ 0%nat) ∧
  (∀ k, remaining (after w h k st0) ≤ 0 → (passes o ≤ k)%nat) ∧
  (∀ k, (k < passes o)%nat ↔
        (k < 500)%nat ∧ 0 < remaining (after w h k st0) ∧
        ∀ j, (j < k)%nat → (iteration w h (after w h j st0)).2 ≠ 0%nat) ∧
  (way_out o ≠ Stuck →
   ∀ k, (k < passes o)%nat → (iteration w h (after w h k st0)).2 ≠ 0%nat) ∧
  match way_out o with
  | Resolved => remaining (final o) = 0
  | Stuck =>
      0 < remaining (final o) ∧
      ∃ k, passes o = S k ∧ (iteration w h (after w h k st0)).2 = 0%nat
  | CapExhausted => passes o = 500%nat ∧ 0 < remaining (final o)
  end.
Proof.
  cbv zeta. pose proof (run_way_out imageData maskData) as Hout.
  pose proof (run_after imageData maskData) as Hfin.
  pose proof (after_Inv _ _ (passes (run imageData maskData)) _
                (initial_Inv imageData maskData)) as [_ _ Hrem].
  rewrite <- Hfin in Hrem.
  split; [done|]. split; [apply while_passes|].
  split; [done|]. split; [apply while_busy|].
  split; [intros k; apply while_passes_le|].
  split; [intros k; apply while_runs|].
  split.
  { intros Hns k.
    exact (run_not_stuck imageData maskData k Hns). }
  destruct (way_out (run imageData maskData)).
  - lia.
  - destruct Hout as [Hcap Hpos]. by split.
  - destruct Hout as (k & Hk & Hpos & Hz). split; [|by exists k].
    rewrite Hfin, Hk, after_S, iteration_remaining, Hz. simpl. lia.
Qed.

Lemma process_terminates_witness :
  let imageData := mkImageData 3 1 [10; 20; 30; 255; 1; 2; 3; 4; 5; 6; 7; 8] in
  let maskData := mkImageData 3 1 [0; 0; 0; 0; 0; 0; 0; 9; 0; 0; 0; 200] in
  passes (run imageData maskData) = 2%nat.
Proof.
  intros imageData maskData.
  pose proof (process_terminates imageData maskData) as H.
  cbv zeta in H. destruct H as (_ & _ & _ & _ & Hle & Hruns & _).
  specialize (Hle 2%nat). specialize (Hruns 1%nat).
  set (n := passes (run imageData maskData)) in *. clearbody n.
  assert (n ≤ 2)%nat as Hn2 by (apply Hle; by vm_compute).
  assert (1 < n)%nat as Hn1.
  { apply Hruns. split; [lia|]. split; [by vm_compute|].
    intros j Hj. assert (j = 0%nat) as -> by lia. by vm_compute. }
  lia.
Defined.

(** C8. When a call ends with no unsolved record left, the mask marks no
    pixel of the picture any more, so a second call on the two objects as
    the first one left them is a no-op: filling twice gives what filling
    once gives. *)
Theorem process_twice imageData maskData :
  remaining (final (run imageData maskData)) = 0 →
  let imageData' := image_after imageData maskData in
  let maskData' := mask_after imageData maskData in
  scan (width imageData') (height imageData') (data maskData') = [] ∧
  image_after imageData' maskData' = imageData' ∧
  mask_after imageData' maskData' = maskData' ∧
  process imageData' maskData' = process imageData maskData.
Proof.
  intros Hzero imageData' maskData'.
  assert (∀ x y, in_bounds (width imageData') (height imageData') x y →
                 masked (data maskData') (offset_of (width imageData') x y) = false)
    as Hclean.
  { intros x y Hb. subst imageData' maskData'. unfold image_after, mask_after in *.
    simpl in *. rewrite run_after in *.
    set (w := width imageData) in *. set (h := height imageData) in *.
    set (k := passes _) in *. set (st0 := initial imageData maskData) in *.
    destruct (masked (data maskData) (offset_of w x y)) eqn:Hm;
      [|by apply after_mask_free].
    assert (DamagedPixel.mk x y (offset_of w x y) false ∈ damagedPixels st0) as Hin
      by (apply elem_of_scan; by exists x, y).
    apply list_elem_of_lookup in Hin as [n Hn].
    destruct (Forall2_lookup_l _ _ _ _ _ (after_progress w h k st0) Hn)
      as (p' & Hp' & Hprog).
    assert (p' ∈ damagedPixels (after w h k st0)) as Hin'
      by (apply list_elem_of_lookup; by exists n).
    destruct (after_Inv w h k st0 (initial_Inv _ _)) as [_ Hmasked Hrem].
    rewrite Hzero in Hrem.
    assert (DamagedPixel.solved p' = true) as Hs.
    { destruct (DamagedPixel.solved p') eqn:Hs; [done|].
      assert (p' ∈ unsolved (damagedPixels (after w h k st0))) as Hun.
      { apply list_elem_of_In, filter_In. split; [by apply list_elem_of_In|].
        by rewrite Hs. }
      destruct (unsolved _); [by apply elem_of_nil in Hun|]. simpl in Hrem. lia. }
    specialize (Hmasked p' Hin'). rewrite Hs in Hmasked.
    by destruct Hprog as [-> | [_ ->]]. }
  destruct (run_clean _ _ Hclean) as [Hrun Hinit].
  assert (image_after imageData' maskData' = imageData') as Himg.
  { unfold image_after at 1. rewrite Hrun, Hinit. by destruct imageData'. }
  split; [by apply scan_none|]. split; [done|]. split.
  - unfold mask_after at 1. rewrite Hrun, Hinit. by destruct maskData'.
  - unfold process. by rewrite Himg.
Qed.

Lemma process_twice_witness :
  let imageData := mkImageData 2 1 [1; 2; 3; 4; 5; 6; 7; 8] in
  let maskData := mkImageData 2 1 [9; 9; 9; 0; 9; 9; 9; 200] in
  image_after (image_after imageData maskData) (mask_after imageData maskData)
    = image_after imageData maskData.
Proof.
  intros imageData maskData.
  apply (process_twice imageData maskData). reflexivity.
Defined.

(** C9. When the mask marks no pixel of the picture, the scanner pushes no
    record and the call is a no-op: no pass is run, and both objects come
    back with every sample as it was. *)
Theorem process_clean_mask imageData maskData :
  (∀ x y, in_bounds (width imageData) (height imageData) x y →
          masked (data maskData) (offset_of (width imageData) x y) = false) →
  scan (width imageData) (height imageData) (data maskData) = [] ∧
  passes (run imageData maskData) = 0%nat ∧
  image_after imageData maskData = imageData ∧
  mask_after imageData maskData = maskData ∧
  process imageData maskData = Fulfilled imageData.
Proof.
  intros Hclean. destruct (run_clean _ _ Hclean) as [Hrun Hinit].
  split; [by apply scan_none|].
  assert (image_after imageData maskData = imageData) as Himg.
  { unfold image_after. rewrite Hrun, Hinit. by destruct imageData. }
  split; [by rewrite Hrun|]. split; [done|].
  split; [|unfold process; by rewrite Himg].
  unfold mask_after. rewrite Hrun, Hinit. by destruct maskData.
Qed.

Lemma process_clean_mask_witness :
  let imageData := mkImageData 2 1 [1; 2; 3; 4; 5; 6; 7; 8] in
  let maskData := mkImageData 2 1 [9; 9; 9; 0; 9; 9; 9; 0] in
  image_after imageData maskData = imageData.
Proof.
  intros imageData maskData.
  apply (process_clean_mask imageData maskData).
  intros x y [Hx Hy]. simpl in *.
  assert (y = 0) as -> by lia.
  assert (x = 0 ∨ x = 1) as [-> | ->] by lia; reflexivity.
Defined.

(** C10. A pixel whose mask alpha is zero when the call starts keeps its
    four samples in the pixel array and its four samples in the mask array.
    More generally, a sample of the pixel array changes only inside a pixel
    that the scanner recorded, and a sample of the mask array changes only
    at the alpha of a record that ends up solved. *)
Theorem process_frame imageData maskData :
  let w := width imageData in
  let h := height imageData in
  (∀ x y c, in_bounds w h x y →
     read (data maskData) (offset_of w x y + 3) = Some 0 → 0 ≤ c < 4 →
     read (data (image_after imageData maskData)) (offset_of w x y + c)
       = read (data imageData) (offset_of w x y + c) ∧
     read (data (mask_after imageData maskData)) (offset_of w x y + c)
       = read (data maskData) (offset_of w x y + c)) ∧
  (∀ j, (∀ p, p ∈ scan w h (data maskData) →
              j < DamagedPixel.i p ∨ DamagedPixel.i p + 3 < j) →
        read (data (image_after imageData maskData)) j = read (data imageData) j) ∧
  (∀ j, (∀ p, p ∈ damagedPixels (final (run imageData maskData)) →
              DamagedPixel.solved p = true → DamagedPixel.i p + 3 ≠ j) →
        read (data (mask_after imageData maskData)) j = read (data maskData) j).
Proof.
  cbv zeta. unfold image_after, mask_after. simpl data. rewrite run_after.
  set (w := width imageData). set (h := height imageData).
  set (k := passes _). set (st0 := initial imageData maskData).
  assert (∀ j, (∀ p, p ∈ scan w h (data maskData) →
                     j < DamagedPixel.i p ∨ DamagedPixel.i p + 3 < j) →
               read (st_data (after w h k st0)) j = read (data imageData) j)
    as Hdata.
  { intros j Hj. rewrite after_data_frame; [done|]. intros p Hp _. by apply Hj. }
  assert (∀ x y c p, masked (data maskData) (offset_of w x y) = false →
                     0 ≤ c < 4 → p ∈ scan w h (data maskData) →
                     offset_of w x y + c < DamagedPixel.i p ∨
                     DamagedPixel.i p + 3 < offset_of w x y + c) as Hapart.
  { intros x y c p Hm Hc Hp.
    pose proof (scan_masked _ _ _ _ Hp) as Hpm.
    pose proof (scan_wf w h (data maskData)) as Hwf. rewrite Forall_forall in Hwf.
    apply (px_wf_apart w h); [by apply Hwf|apply offset_of_mod|done|].
    intros Heq. rewrite Heq in Hpm. congruence. }
  split; [|split; [done|]].
  - intros x y c Hb Hzero Hc.
    assert (masked (data maskData) (offset_of w x y) = false) as Hm
      by (unfold masked; by rewrite Hzero).
    split; [apply Hdata; intros p Hp; by apply Hapart|].
    apply after_mask_frame. intros p Hp _.
    specialize (Hapart x y c p Hm Hc Hp). lia.
  - intros j Hj. apply after_mask_frame_solved; [apply initial_Inv|].
    intros p Hp Hs Hpj. by destruct (Hj p Hp Hs).
Qed.

Lemma process_frame_witness :
  let imageData := mkImageData 2 1 [1; 2; 3; 4; 5; 6; 7; 8] in
  let maskData := mkImageData 2 1 [9; 9; 9; 0; 9; 9; 9; 200] in
  read (data (image_after imageData maskData)) 2 = Some 3.
Proof.
  intros imageData maskData.
  pose proof (process_frame imageData maskData) as [Hframe _].
  destruct (Hframe 0 0 2) as [Himg _]; [done..|].
  exact Himg.
Defined.

(** * Further properties: the mask from pass to pass *)

Section rings.
Context (width height : Z).

Lemma elem_of_grid p :
  p ∈ grid width height ↔
  ∃ x y, in_bounds width height x y ∧
         p = DamagedPixel.mk x y (offset_of width x y) false.
Proof.
  unfold grid. rewrite elem_of_flat_map. split.
  - intros (y & Hy%elem_of_range & (x & -> & Hx%elem_of_range)%list_elem_of_fmap).
    by exists x, y.
  - intros (x & y & [Hx Hy] & ->). exists y. split; [by apply elem_of_range|].
    apply list_elem_of_fmap. exists x. split; [done|by apply elem_of_range].
Qed.

Lemma scan_row_filter mask y xs :
  flat_map (scan_cell width mask y) xs =
    List.filter (fun p => masked mask (DamagedPixel.i p))
      ((fun x => DamagedPixel.mk x y (offset_of width x y) false) <$> xs).
Proof.
  induction xs as [|x xs IH]; [done|].
  simpl. rewrite IH, scan_cell_eq. by destruct (masked mask _).
Qed.

(** The scanner keeps the marked records of the grid. *)
Lemma scan_grid mask :
  scan width height mask =
    List.filter (fun p => masked mask (DamagedPixel.i p)) (grid width height).
Proof.
  unfold scan, grid. induction (range height) as [|y ys IH]; [done|].
  simpl. rewrite List.filter_app, IH. f_equal. apply scan_row_filter.
Qed.

Lemma filter_filter_ext {A} (f g g' : A → bool) (l : list A) :
  (∀ a, a ∈ l → g' a = g a && f a) →
  List.filter f (List.filter g l) = List.filter g' l.
Proof.
  induction l as [|a l IH]; intros H; [done|]. simpl.
  rewrite (H a) by left.
  destruct (g a); simpl; [destruct (f a)|]; rewrite IH; try done;
    intros b Hb; apply H; by right.
Qed.

Lemma unsolved_resolve_filter mask damagedPixels :
  unsolved (resolve width height mask <$> damagedPixels) =
    List.filter (fun p => negb (resolvable width height mask p))
                (unsolved damagedPixels).
Proof.
  induction damagedPixels as [|p l IH]; [done|].
  rewrite fmap_cons. unfold unsolved in *. simpl List.filter.
  rewrite resolve_solved.
  assert (resolvable width height mask p =
          negb (DamagedPixel.solved p) &&
          (0 <? free_neighbours width height mask p)) as Hr by done.
  destruct (DamagedPixel.solved p) eqn:Hs; cbn [negb orb].
  - done.
  - simpl List.filter. rewrite Hr. cbn [negb andb].
    unfold resolve at 1. rewrite Hr. cbn [negb andb].
    destruct (0 <? free_neighbours width height mask p); cbn [negb]; by rewrite IH.
Qed.

(** What a round does to the mark of a pixel: it goes off when a neighbour
    is free, and not otherwise. *)
Lemma iteration_masked st x y :
  Tracked width height st → in_bounds width height x y →
  masked (st_mask (iteration width height st).1) (offset_of width x y) =
    masked (st_mask st) (offset_of width x y) &&
    negb (0 <? free_neighbours width height (st_mask st)
                 (DamagedPixel.mk x y (offset_of width x y) false)).
Proof.
  intros [Hinv Hscan] Hb.
  set (p := DamagedPixel.mk x y (offset_of width x y) false).
  destruct (masked (st_mask st) (offset_of width x y)) eqn:Hm; simpl.
  2: { by apply iteration_mask_free. }
  assert (p ∈ damagedPixels st) as Hp.
  { assert (p ∈ unsolved (damagedPixels st)) as Hin
      by (rewrite Hscan; apply elem_of_scan; by exists x, y).
    apply list_elem_of_In, filter_In in Hin as [Hin _]. by apply list_elem_of_In. }
  assert (resolvable width height (st_mask st) p =
          (0 <? free_neighbours width height (st_mask st) p)) as Hr by done.
  pose proof (iteration_Inv width height st Hinv) as [_ Hmasked' _].
  specialize (Hmasked' (resolve width height (st_mask st) p)).
  destruct (resolve_coords width height (st_mask st) p) as (_ & _ & Hi).
  rewrite Hi, resolve_solved, Hr in Hmasked'. simpl in Hmasked'.
  rewrite Hmasked'; [done|].
  rewrite iteration_spec. simpl. apply list_elem_of_fmap. by exists p.
Qed.

Lemma iteration_Tracked st :
  Tracked width height st → Tracked width height (iteration width height st).1.
Proof.
  intros Ht. pose proof Ht as [Hinv Hscan]. split; [by apply iteration_Inv|].
  transitivity (List.filter (fun p => negb (resolvable width height (st_mask st) p))
                            (unsolved (damagedPixels st))).
  { rewrite iteration_spec. simpl. apply unsolved_resolve_filter. }
  rewrite Hscan, !scan_grid. apply filter_filter_ext.
  intros p (x & y & Hb & ->)%elem_of_grid. simpl DamagedPixel.i.
  by rewrite iteration_masked.
Qed.

Lemma after_Tracked k st :
  Tracked width height st → Tracked width height (after width height k st).
Proof.
  revert st. induction k as [|k IH]; intros st Ht; [done|].
  simpl. by apply IH, iteration_Tracked.
Qed.

(** A round that solves nothing leaves the variables as they are, and so
    do all the rounds after it. *)
Lemma iteration_idle st :
  (iteration width height st).2 = 0%nat → iteration width height st = (st, 0%nat).
Proof.
  intros Hlen. apply iteration_stuck. intros p Hp.
  rewrite iteration_spec in Hlen. simpl in Hlen. rewrite length_fmap in Hlen.
  destruct (resolvable width height (st_mask st) p) eqn:Hr; [|done].
  assert (p ∈ List.filter (resolvable width height (st_mask st)) (damagedPixels st))
    as Hin by (apply list_elem_of_In, filter_In; by rewrite <- list_elem_of_In).
  destruct (List.filter _ _); [by apply elem_of_nil in Hin|done].
Qed.

Lemma after_idle k st :
  (iteration width height st).2 = 0%nat → after width height k st = st.
Proof.
  intros Hidle. induction k as [|k IH]; [done|].
  simpl. by rewrite (iteration_idle st Hidle).
Qed.
End rings.

Lemma initial_Tracked imageData maskData :
  Tracked (width imageData) (height imageData) (initial imageData maskData).
Proof.
  split; [apply initial_Inv|]. simpl.
  apply unsolved_all, scan_unsolved.
Qed.

(** * Further properties: rings *)

Lemma elem_of_offsets d : d ∈ offsets ↔ -1 ≤ d.1 ≤ 1 ∧ -1 ≤ d.2 ≤ 1.
Proof.
  destruct d as [dx dy]. unfold offsets. cbn [flat_map map app fst snd].
  rewrite !elem_of_cons, elem_of_nil. split.
  - intros H. repeat (destruct H as [H|H]; [injection H as -> ->; lia|]). done.
  - intros [Hx Hy].
    assert (dx = -1 ∨ dx = 0 ∨ dx = 1) as [-> | [-> | ->]] by lia;
    assert (dy = -1 ∨ dy = 0 ∨ dy = 1) as [-> | [-> | ->]] by lia;
    auto 10.
Qed.

Section near.
Context (width height : Z) (mask : list Z).

Lemma contributes_iff p d :
  contributes width height mask p d = true ↔
  (d.1 ≠ 0 ∨ d.2 ≠ 0) ∧
  free_pixel width height mask (DamagedPixel.x p + d.1) (DamagedPixel.y p + d.2).
Proof.
  split.
  - intros Hc. split; [|by apply contributes_in_bounds].
    unfold contributes in Hc. apply andb_true_iff in Hc as [Hc _].
    apply andb_true_iff in Hc as [Hc _].
    apply negb_true_iff, andb_false_iff in Hc. rewrite !Z.eqb_neq in Hc. done.
  - intros [Hd [Hb Hm]]. by apply contributes_free.
Qed.

Lemma free_neighbours_pos p :
  (0 <? free_neighbours width height mask p) = true ↔
  ∃ d, d ∈ offsets ∧ contributes width height mask p d = true.
Proof.
  unfold free_neighbours. rewrite Z.ltb_lt. split.
  - intros Hpos. destruct (List.filter _ offsets) as [|d l] eqn:Hf.
    { simpl in Hpos. lia. }
    assert (In d (List.filter (contributes width height mask p) offsets)) as Hin
      by (rewrite Hf; by left).
    apply filter_In in Hin as [Hin Hc]. exists d. by rewrite list_elem_of_In.
  - intros (d & Hd & Hc).
    assert (In d (List.filter (contributes width height mask p) offsets)) as Hin
      by (apply filter_In; by rewrite <- list_elem_of_In).
    destruct (List.filter _ offsets); [done|]. simpl. lia.
Qed.

Lemma near_0 x y :
  in_bounds width height x y →
  near width height mask 0 x y ↔ masked mask (offset_of width x y) = false.
Proof.
  intros Hb. split.
  - intros (x' & y' & [_ Hm] & Hx & Hy).
    assert (x' = x) as -> by lia. assert (y' = y) as -> by lia. done.
  - intros Hm. exists x, y. split; [done|]. lia.
Qed.

Lemma near_mono k k' x y :
  (k ≤ k')%nat → near width height mask k x y → near width height mask k' x y.
Proof.
  intros Hk (x' & y' & Hf & Hx & Hy). exists x', y'. split; [done|]. lia.
Qed.

(** A pixel is within [k + 1] steps of a free pixel when it or one of its
    neighbours in the picture is within [k] steps of one. *)
Lemma near_S k x y :
  in_bounds width height x y →
  near width height mask (S k) x y ↔
  near width height mask k x y ∨
  ∃ d, d ∈ offsets ∧ (d.1 ≠ 0 ∨ d.2 ≠ 0) ∧
       in_bounds width height (x + d.1) (y + d.2) ∧
       near width height mask k (x + d.1) (y + d.2).
Proof.
  intros [Hx Hy]. split.
  - intros (x' & y' & Hf & Hdx & Hdy).
    set (dx := Z.max (-1) (Z.min 1 (x' - x))).
    set (dy := Z.max (-1) (Z.min 1 (y' - y))).
    destruct (decide (dx = 0 ∧ dy = 0)) as [[Hx0 Hy0]|Hne].
    + left. exists x', y'. split; [done|]. lia.
    + right. exists (dx, dy). destruct Hf as [[Hx' Hy'] Hm].
      split; [apply elem_of_offsets; simpl; lia|].
      split; [simpl; lia|]. split; [unfold in_bounds; simpl; lia|].
      exists x', y'. split; [done|]. simpl. lia.
  - intros [Hn|(d & Hd%elem_of_offsets & _ & _ & (x' & y' & Hf & Hdx & Hdy))].
    + apply (near_mono k); [lia|done].
    + exists x', y'. split; [done|]. lia.
Qed.
End near.

(** After [k] rounds the mask has let go of the pixels within [k] steps of
    a pixel that was free when the call began, and of no other. *)
Lemma after_masked_near imageData maskData k x y :
  let w := width imageData in
  let h := height imageData in
  in_bounds w h x y →
  masked (st_mask (after w h k (initial imageData maskData))) (offset_of w x y)
    = false ↔
  near w h (data maskData) k x y.
Proof.
  intros w h. revert x y. induction k as [|k IH]; intros x y Hb.
  - symmetry. by apply near_0.
  - rewrite after_S, iteration_masked;
      [|apply after_Tracked, initial_Tracked|done].
    rewrite (near_S w h (data maskData) k x y Hb), andb_false_iff, negb_false_iff.
    rewrite (IH x y Hb), free_neighbours_pos.
    apply or_iff_compat_l. split.
    + intros (d & Hd & [Hne [Hbn Hm]]%contributes_iff). simpl in *.
      exists d. split; [done|]. split; [done|]. split; [done|]. by apply IH.
    + intros (d & Hd & Hne & Hbn & Hn). exists d. split; [done|].
      apply contributes_iff. split; [done|]. split; [done|]. by apply IH.
Qed.

(** A pixel sample changes only where a record ends up solved. *)
Lemma after_data_frame_solved width height k st j :
  Inv width height st →
  (∀ p, p ∈ damagedPixels (after width height k st) →
        DamagedPixel.solved p = true →
        DamagedPixel.i p ≤ j ≤ DamagedPixel.i p + 3 →
        p ∈ damagedPixels st) →
  read (st_data (after width height k st)) j = read (st_data st) j.
Proof.
  revert st. induction k as [|k IH]; intros st Hinv Hj; [done|].
  simpl. rewrite IH.
  - rewrite iteration_spec. simpl. apply pass_frame. intros q Hq Hr.
    destruct (decide (DamagedPixel.i q ≤ j ≤ DamagedPixel.i q + 3)) as [Hin|?];
      [exfalso|lia].
    assert (DamagedPixel.solve q ∈ damagedPixels (iteration width height st).1) as Hq'.
    { rewrite iteration_spec. simpl. apply list_elem_of_fmap. exists q.
      split; [|done]. unfold resolve. by rewrite Hr. }
    apply (after_solved width height k) in Hq'; [|done].
    apply Hj in Hq'; [|done..].
    destruct Hinv as [_ Hmasked _].
    pose proof (Hmasked _ Hq') as Hm1. pose proof (Hmasked _ Hq) as Hm2.
    unfold resolvable in Hr. apply andb_true_iff in Hr as [Hr _].
    rewrite Hr in Hm2. simpl in Hm1. congruence.
  - by apply iteration_Inv.
  - intros p Hp Hs Hpj. apply (after_solved width height 1); [|done].
    by apply Hj.
Qed.

(** Once every pixel of the picture is within [k] steps of a free pixel,
    nothing remains after [k] rounds. *)
Lemma remaining_after_near imageData maskData k :
  let w := width imageData in
  let h := height imageData in
  (∀ x y, in_bounds w h x y → near w h (data maskData) k x y) →
  remaining (after w h k (initial imageData maskData)) = 0.
Proof.
  intros w h Hnear.
  destruct (after_Tracked w h k _ (initial_Tracked imageData maskData))
    as [[_ _ Hrem] Hscan].
  rewrite Hrem, Hscan, scan_none; [done|].
  intros x y Hb. apply after_masked_near; [done|]. by apply Hnear.
Qed.

(** ... and the loop is left by its condition [remaining > 0], within [k]
    passes when [k] is below the cap. *)
Lemma run_resolves_within imageData maskData k :
  let w := width imageData in
  let h := height imageData in
  (∀ x y, in_bounds w h x y → near w h (data maskData) k x y) →
  way_out (run imageData maskData) ≠ Stuck ∧
  ((k ≤ 500)%nat →
   way_out (run imageData maskData) = Resolved ∧
   (passes (run imageData maskData) ≤ k)%nat ∧
   remaining (final (run imageData maskData)) = 0).
Proof.
  intros w h Hnear.
  pose proof (run_way_out imageData maskData) as Hout.
  pose proof (run_after imageData maskData) as Hfin. fold w h in Hfin, Hout.
  assert (∀ m, remaining (after w h (k + m) (initial imageData maskData)) = 0)
    as Hzero.
  { intros m. apply remaining_after_near. intros x y Hb.
    apply (near_mono _ _ _ k); [lia|by apply Hnear]. }
  assert (way_out (run imageData maskData) ≠ Stuck) as Hns.
  { intros Hstuck. rewrite Hstuck in Hout.
    destruct Hout as (j & _ & Hpos & Hidle).
    specialize (Hzero j). rewrite Nat.add_comm, after_add in Hzero.
    rewrite (after_idle w h k _ Hidle) in Hzero. lia. }
  split; [done|]. intros Hk.
  assert ((passes (run imageData maskData) ≤ k)%nat) as Hpasses.
  { apply while_passes_le. specialize (Hzero 0%nat).
    rewrite Nat.add_0_r in Hzero. fold w h. lia. }
  destruct (way_out (run imageData maskData)) eqn:Hway; [|exfalso|done].
  - split; [done|]. split; [done|].
    pose proof (after_Inv w h (passes (run imageData maskData)) _
                  (initial_Inv imageData maskData)) as [_ _ Hrem].
    rewrite <- Hfin in Hrem. lia.
  - destruct Hout as [Hcap Hpos]. rewrite Hfin, Hcap in Hpos.
    specialize (Hzero (500 - k)%nat).
    replace (k + (500 - k))%nat with maxIterations in Hzero
      by (unfold maxIterations; lia).
    lia.
Qed.

(** In a picture with a free pixel every pixel is within [max width height]
    steps of it. *)
Lemma near_anywhere width height mask x0 y0 x y :
  free_pixel width height mask x0 y0 → in_bounds width height x y →
  near width height mask (Z.to_nat (Z.max width height - 1)) x y.
Proof.
  intros Hf [Hx Hy]. exists x0, y0. split; [done|].
  destruct Hf as [[Hx0 Hy0] _]. lia.
Qed.

(** A pixel that is still marked when the call returns has its samples in
    both arrays as the call found them. *)
Lemma still_masked_unchanged imageData maskData k x y c :
  let w := width imageData in
  let h := height imageData in
  let st := after w h k (initial imageData maskData) in
  in_bounds w h x y → masked (st_mask st) (offset_of w x y) = true →
  0 ≤ c < 4 →
  read (st_data st) (offset_of w x y + c)
    = read (data imageData) (offset_of w x y + c) ∧
  read (st_mask st) (offset_of w x y + c)
    = read (data maskData) (offset_of w x y + c).
Proof.
  intros w h st Hb Hm Hc.
  pose proof (initial_Inv imageData maskData) as Hinv0. fold w h in Hinv0.
  destruct (after_Inv w h k _ Hinv0) as [Hwf Hmasked _]. fold st in Hwf, Hmasked.
  rewrite Forall_forall in Hwf.
  assert (∀ p, p ∈ damagedPixels st → DamagedPixel.solved p = true →
               offset_of w x y + c < DamagedPixel.i p ∨
               DamagedPixel.i p + 3 < offset_of w x y + c) as Hapart.
  { intros p Hp Hs. apply (px_wf_apart w h); [by apply Hwf|apply offset_of_mod|done|].
    intros Heq. specialize (Hmasked p Hp). rewrite Heq, Hs, Hm in Hmasked. done. }
  split.
  - apply (after_data_frame_solved w h k _ _ Hinv0).
    intros p Hp Hs Hin. specialize (Hapart p Hp Hs). lia.
  - apply (after_mask_frame_solved w h k _ _ Hinv0).
    intros p Hp Hs Hin. specialize (Hapart p Hp Hs). lia.
Qed.

(** * Further properties: the samples a round stores *)

Lemma read_same_length (arr1 arr2 : list Z) (j v : Z) :
  length arr1 = length arr2 →
  (fun _ => v) <$> read arr1 j = (fun _ => v) <$> read arr2 j.
Proof.
  intros Hlen. unfold read. destruct (j <? 0); [done|].
  destruct (arr1 !! Z.to_nat j) eqn:E1, (arr2 !! Z.to_nat j) eqn:E2; try done.
  - apply lookup_lt_Some in E1. apply lookup_ge_None in E2. lia.
  - apply lookup_lt_Some in E2. apply lookup_ge_None in E1. lia.
Qed.

(** What the four stores leave at an address of the pixel. *)
Lemma read_fill_pixel_at data p s j :
  DamagedPixel.i p ≤ j ≤ DamagedPixel.i p + 3 →
  ∃ v, read (fill_pixel data p s) j = (fun _ => v) <$> read data j ∧
       ∀ data', read (fill_pixel data' p s) j = (fun _ => v) <$> read data' j.
Proof.
  intros Hj. destruct s as [[[r g] b] count].
  assert (j = DamagedPixel.i p ∨ j = DamagedPixel.i p + 1 ∨
          j = DamagedPixel.i p + 2 ∨ j = DamagedPixel.i p + 3)
    as [-> | [-> | [-> | ->]]] by lia.
  - exists (quot_sample r count). split; [|intros data'];
      apply (read_fill_pixel _ p r g b count).
  - exists (quot_sample g count). split; [|intros data'];
      apply (read_fill_pixel _ p r g b count).
  - exists (quot_sample b count). split; [|intros data'];
      apply (read_fill_pixel _ p r g b count).
  - exists 255. split; [|intros data'];
      apply (read_fill_pixel _ p r g b count).
Qed.

Section stores_of_a_pass.
Context (width height : Z) (mask snapshot : list Z).

Lemma length_paint data p :
  length (paint width height mask snapshot data p) = length data.
Proof. unfold paint. destruct (resolvable _ _ _ _); [apply length_fill_pixel|done]. Qed.

(** An address after the pass: untouched, or holding what the stores of a
    resolvable record over it leave. *)
Lemma fold_paint_cases damagedPixels data j :
  let data' := fold_left (paint width height mask snapshot) damagedPixels data in
  ((∀ q, q ∈ damagedPixels → resolvable width height mask q = true →
         j < DamagedPixel.i q ∨ DamagedPixel.i q + 3 < j) ∧
   read data' j = read data j) ∨
  (∃ q, q ∈ damagedPixels ∧ resolvable width height mask q = true ∧
        DamagedPixel.i q ≤ j ≤ DamagedPixel.i q + 3 ∧
        read data' j =
          read (fill_pixel data q (neighbours width height snapshot mask q)) j).
Proof.
  revert data. induction damagedPixels as [|q l IH]; intros data; cbv zeta.
  { left. split; [|done]. by intros q Hq%elem_of_nil. }
  simpl fold_left.
  destruct (IH (paint width height mask snapshot data q))
    as [[Hnone Hread]|(q' & Hq' & Hr' & Hin' & Hread)]; cbv zeta in *.
  - destruct (resolvable width height mask q) eqn:Hr.
    + destruct (decide (DamagedPixel.i q ≤ j ≤ DamagedPixel.i q + 3)) as [Hin|Hout].
      * right. exists q. split; [by left|]. split; [done|]. split; [done|].
        rewrite Hread. unfold paint. by rewrite Hr.
      * left. split.
        -- intros q0 [->|Hq0]%elem_of_cons Hr0; [lia|by apply Hnone].
        -- rewrite Hread. unfold paint. rewrite Hr.
           apply read_fill_pixel_other. lia.
    + left. split.
      * intros q0 [->|Hq0]%elem_of_cons Hr0; [congruence|by apply Hnone].
      * rewrite Hread. unfold paint. by rewrite Hr.
  - right. exists q'. split; [by right|]. split; [done|]. split; [done|].
    rewrite Hread.
    destruct (read_fill_pixel_at data q'
                (neighbours width height snapshot mask q') j Hin')
      as (v & -> & Hany).
    rewrite Hany. apply read_same_length, length_paint.
Qed.
End stores_of_a_pass.

(** What a round leaves at the addresses of a marked pixel. *)
Lemma iteration_data_at width height st x y j :
  let p := DamagedPixel.mk x y (offset_of width x y) false in
  let s := neighbours width height (st_data st) (st_mask st) p in
  Tracked width height st → in_bounds width height x y →
  masked (st_mask st) (offset_of width x y) = true →
  offset_of width x y ≤ j ≤ offset_of width x y + 3 →
  read (st_data (iteration width height st).1) j =
    if 0 <? count_of s then read (fill_pixel (st_data st) p s) j
    else read (st_data st) j.
Proof.
  intros p s [Hinv Hscan] Hb Hm Hj.
  pose proof Hinv as [Hwf Hmasked _].
  assert (px_wf width height p) as Hp by done.
  assert (p ∈ damagedPixels st) as Hin.
  { assert (p ∈ unsolved (damagedPixels st)) as Hin
      by (rewrite Hscan; apply elem_of_scan; by exists x, y).
    apply list_elem_of_In, filter_In in Hin as [Hin _]. by apply list_elem_of_In. }
  assert (resolvable width height (st_mask st) p = (0 <? count_of s)) as Hrp
    by (subst s; by rewrite count_of_neighbours).
  rewrite iteration_spec. simpl st_data.
  rewrite (pass_is_snapshot width height (st_mask st) (st_data st));
    [|done| |apply same_free_refl].
  2: { intros q Hq Hs. by rewrite (Hmasked q Hq), Hs. }
  rewrite pass_snapshot_spec. simpl.
  rewrite Forall_forall in Hwf.
  destruct (fold_paint_cases width height (st_mask st) (st_data st)
              (damagedPixels st) (st_data st) j)
    as [[Hnone Hread]|(q & Hq & Hr & Hjq & Hread)]; cbv zeta in *.
  - rewrite Hread. destruct (0 <? count_of s); [|done].
    specialize (Hnone p Hin Hrp). simpl in Hnone. lia.
  - assert (DamagedPixel.i q = DamagedPixel.i p) as Hi.
    { destruct (decide (DamagedPixel.i q = offset_of width x y)) as [|Hne]; [done|].
      pose proof (px_wf_apart width height q (offset_of width x y)
                    (j - offset_of width x y) (Hwf q Hq)
                    (offset_of_mod width x y) ltac:(lia) Hne). lia. }
    destruct (px_wf_same_pixel width height q p (Hwf q Hq) Hp Hi) as [Hx Hy].
    assert (resolvable width height (st_mask st) p = true) as Hrp'.
    { unfold resolvable in *. rewrite <- (free_neighbours_coords _ _ _ q p Hx Hy).
      apply andb_true_iff in Hr as [_ ->]. done. }
    rewrite Hrp in Hrp'. rewrite Hrp', Hread.
    rewrite (neighbours_coords width height (st_mask st) (st_data st) q p Hx Hy).
    by rewrite (fill_pixel_addr _ q p _ Hi).
Qed.

(** * Further properties: no colour out of range *)

(** The rounded mean of values between [lo] and [hi] lies between [lo] and
    [hi]. *)
Lemma ToUint8Clamp_quot_between lo hi s n :
  0 < n → 0 ≤ lo → hi ≤ 255 → lo * n ≤ s ≤ hi * n →
  lo ≤ ToUint8Clamp_quot s n ≤ hi.
Proof.
  intros Hn Hlo Hhi Hs.
  destruct (ToUint8Clamp_quot_nearest s n Hn) as [[Hnear _] _]; [nia|].
  set (v := ToUint8Clamp_quot s n) in *. nia.
Qed.

Lemma gather_channel width data p s d c :
  0 ≤ c < 3 →
  channel_sum (gather width data p s d) c =
    plus (channel_sum s c)
         (read data (offset_of width (DamagedPixel.x p + d.1)
                                     (DamagedPixel.y p + d.2) + c)).
Proof.
  intros Hc. assert (c = 0 ∨ c = 1 ∨ c = 2) as [-> | [-> | ->]] by lia;
    unfold channel_sum, gather; simpl; by rewrite ?Z.add_0_r.
Qed.

(** The sum of a channel over neighbours whose samples lie between [lo]
    and [hi] lies between [count] times [lo] and [count] times [hi]. *)
Lemma neighbours_channel_bounds width height data mask p lo hi c :
  0 ≤ c < 3 →
  (∀ d, contributes width height mask p d = true →
        sample_within lo hi data
          (offset_of width (DamagedPixel.x p + d.1) (DamagedPixel.y p + d.2) + c)) →
  ∃ s, channel_sum (neighbours width height data mask p) c = Num s ∧
       lo * count_of (neighbours width height data mask p) ≤ s
         ≤ hi * count_of (neighbours width height data mask p).
Proof.
  intros Hc Hin. rewrite neighbours_eq.
  assert (∃ s, channel_sum no_sums c = Num s ∧
               lo * count_of no_sums ≤ s ≤ hi * count_of no_sums) as Hacc.
  { exists 0. split; [|simpl; lia]. unfold channel_sum, no_sums. simpl.
    by repeat destruct (_ =? _). }
  revert Hacc. generalize no_sums.
  induction offsets as [|d l IH]; intros acc Hacc; [done|].
  simpl. apply IH. destruct (contributes width height mask p d) eqn:Hd; [|done].
  destruct Hacc as (s & Hs & Hbounds). destruct (Hin d Hd) as (v & Hv & Hvb).
  exists (s + v). rewrite gather_channel, Hs, Hv by done. split; [done|].
  unfold count_of, gather in *. simpl. lia.
Qed.

Section within.
Context (width height lo hi c : Z).
Hypothesis (Hc : 0 ≤ c < 3) (Hlo : 0 ≤ lo) (Hhi : hi ≤ 255).

(** A round keeps channel [c] of the free pixels between [lo] and [hi]. *)
Lemma iteration_Within st :
  Tracked width height st →
  width * height * 4 ≤ Z.of_nat (length (st_data st)) →
  Within width height lo hi c st →
  Within width height lo hi c (iteration width height st).1.
Proof.
  intros Ht Hlen Hwithin x y Hb Hfree.
  pose proof Ht as [[Hwf Hmasked _] _]. rewrite Forall_forall in Hwf.
  rewrite iteration_masked in Hfree by done. unfold sample_within.
  destruct (masked (st_mask st) (offset_of width x y)) eqn:Hm.
  - simpl in Hfree. apply negb_false_iff in Hfree.
    set (p := DamagedPixel.mk x y (offset_of width x y) false) in *.
    set (s := neighbours width height (st_data st) (st_mask st) p).
    assert ((0 <? count_of s) = true) as Hcount
      by (subst s; by rewrite count_of_neighbours).
    rewrite (iteration_data_at width height st x y) by (done || lia).
    fold p s. rewrite Hcount.
    destruct (neighbours_channel_bounds width height (st_data st) (st_mask st)
                p lo hi c Hc) as (sc & Hsc & Hbounds).
    { intros d [Hbn Hfn]%contributes_in_bounds. by apply Hwithin. }
    fold s in Hsc, Hbounds. apply Z.ltb_lt in Hcount.
    assert (is_Some (read (st_data st) (offset_of width x y + c))) as [u Hu].
    { unfold read. destruct Hb as [Hx Hy]. unfold offset_of in *.
      destruct (Z.ltb_spec ((y * width + x) * 4 + c) 0); [nia|].
      apply lookup_lt_is_Some_2. nia. }
    destruct s as [[[r g] b] n] eqn:Hs.
    destruct (read_fill_pixel (st_data st) p r g b n) as (R0 & R1 & R2 & _).
    simpl in R0, R1, R2. unfold channel_sum, count_of in *. simpl in *.
    exists (ToUint8Clamp_quot sc n).
    split; [|by apply ToUint8Clamp_quot_between].
    assert (c = 0 ∨ c = 1 ∨ c = 2) as [-> | [-> | ->]] by lia; simpl in *.
    + rewrite Z.add_0_r in *. by rewrite R0, Hu, Hsc.
    + by rewrite R1, Hu, Hsc.
    + by rewrite R2, Hu, Hsc.
  - rewrite iteration_data_frame; [by apply Hwithin|].
    intros q Hq Hs. apply (px_wf_apart width height);
      [by apply Hwf|apply offset_of_mod|lia|].
    intros Heq. specialize (Hmasked q Hq). rewrite Heq, Hs, Hm in Hmasked. done.
Qed.

Lemma after_Within k st :
  Tracked width height st →
  width * height * 4 ≤ Z.of_nat (length (st_data st)) →
  Within width height lo hi c st →
  Within width height lo hi c (after width height k st).
Proof.
  revert st. induction k as [|k IH]; intros st Ht Hlen Hwithin; [done|].
  simpl. apply IH.
  - by apply iteration_Tracked.
  - by destruct (iteration_lengths width height st) as [-> _].
  - by apply iteration_Within.
Qed.
End within.

(** * Further properties: the order of the scanner *)

Lemma StronglySorted_flat_map {A B} (R : relation A) (S : relation B)
    (f : A → list B) (l : list A) :
  StronglySorted R l →
  (∀ a, a ∈ l → StronglySorted S (f a)) →
  (∀ a b u v, a ∈ l → b ∈ l → R a b → u ∈ f a → v ∈ f b → S u v) →
  StronglySorted S (flat_map f l).
Proof.
  induction 1 as [|a l Hl IH Hall]; intros Hin Hcross; simpl; [constructor|].
  rewrite Forall_forall in Hall. apply StronglySorted_app_2.
  - intros u v Hu (b & Hb & Hv)%elem_of_flat_map.
    apply (Hcross a b); [by left|by right|by apply Hall|done..].
  - apply Hin. by left.
  - apply IH.
    + intros b Hb. apply Hin. by right.
    + intros b c u v Hb Hc. apply Hcross; by right.
Qed.

Lemma StronglySorted_List_filter {A} (R : relation A) (f : A → bool) (l : list A) :
  StronglySorted R l → StronglySorted R (List.filter f l).
Proof.
  induction 1 as [|a l Hl IH Hall]; simpl; [constructor|].
  destruct (f a); [|done]. constructor; [done|].
  rewrite Forall_forall in *. intros b Hb. apply Hall.
  apply list_elem_of_In, filter_In in Hb as [Hb _]. by apply list_elem_of_In.
Qed.

Lemma StronglySorted_range n : StronglySorted Z.lt (range n).
Proof.
  unfold range. destruct (decide (n ≤ 0)) as [|Hpos];
    [rewrite seqZ_nil by done; constructor|].
  rewrite <- (Z2Nat.id n) by lia. generalize (Z.to_nat n) as len. generalize 0.
  intros m len. revert m. induction len as [|len IH]; intros m.
  - rewrite seqZ_nil by done. constructor.
  - rewrite seqZ_cons by lia. constructor.
    + replace (Z.pred (Z.of_nat (S len))) with (Z.of_nat len) by lia. apply IH.
    + apply Forall_forall. intros z Hz%elem_of_seqZ. lia.
Qed.

Lemma grid_row_major width height :
  StronglySorted row_major (grid width height).
Proof.
  unfold grid. apply (StronglySorted_flat_map Z.lt).
  - apply StronglySorted_range.
  - intros y _. apply (StronglySorted_fmap _ Z.lt); [|apply StronglySorted_range].
    intros x x' Hx. by right.
  - intros y y' u v _ _ Hy (x & -> & _)%list_elem_of_fmap
      (x' & -> & _)%list_elem_of_fmap.
    by left.
Qed.

(** * Further properties: the count of what remains *)

(** Every pass but a last idle one takes at least one off [remaining]. *)
Lemma while_passes_remaining width height maxIterations st :
  Z.of_nat (passes (while width height maxIterations st)) ≤ Z.max 0 (remaining st).
Proof.
  revert st. induction maxIterations as [|n IH]; intros st.
  - rewrite while_O. destruct (0 <? remaining st); simpl; lia.
  - rewrite while_S. destruct (Z.ltb_spec 0 (remaining st)); simpl passes; [|lia].
    destruct (Nat.eqb_spec (iteration width height st).2 0); simpl passes; [lia|].
    specialize (IH (iteration width height st).1).
    rewrite iteration_remaining in IH. lia.
Qed.

Lemma StronglySorted_NoDup {A} (R : relation A) (l : list A) :
  (∀ a, ¬ R a a) → StronglySorted R l → NoDup l.
Proof.
  intros Hirr. induction 1 as [|a l Hl IH Hall]; constructor; [|done].
  rewrite Forall_forall in Hall. intros Ha. by apply (Hirr a), Hall.
Qed.

(** A pixel resolved by the call is opaque from then on. *)
Lemma after_opaque imageData maskData k x y :
  let w := width imageData in
  let h := height imageData in
  let st := after w h k (initial imageData maskData) in
  in_bounds w h x y →
  masked (data maskData) (offset_of w x y) = true →
  masked (st_mask st) (offset_of w x y) = false →
  read (st_data st) (offset_of w x y + 3)
    = (fun _ => 255) <$> read (data imageData) (offset_of w x y + 3).
Proof.
  intros w h. induction k as [|k IH]; intros st Hb Hm0 Hm; [simpl in *; congruence|].
  subst st. rewrite after_S in *.
  set (st := after w h k (initial imageData maskData)) in *.
  pose proof (after_Tracked w h k _ (initial_Tracked imageData maskData)) as Ht.
  fold st in Ht. pose proof Ht as [[Hwf Hmasked _] _]. rewrite Forall_forall in Hwf.
  rewrite iteration_masked in Hm by done.
  destruct (masked (st_mask st) (offset_of w x y)) eqn:Hmk.
  - simpl in Hm. apply negb_false_iff in Hm.
    rewrite (iteration_data_at w h st x y) by (done || lia).
    rewrite count_of_neighbours, Hm.
    destruct (neighbours w h (st_data st) (st_mask st) _) as [[[r g] b] n].
    destruct (read_fill_pixel (st_data st)
                (DamagedPixel.mk x y (offset_of w x y) false) r g b n)
      as (_ & _ & _ & R3). cbn [DamagedPixel.i] in R3. rewrite R3.
    destruct (still_masked_unchanged imageData maskData k x y 3 Hb Hmk)
      as [Hkeep _]; [lia|].
    fold w h in Hkeep. fold st in Hkeep. by rewrite Hkeep.
  - rewrite iteration_data_frame; [by apply IH|].
    intros q Hq Hs. apply (px_wf_apart w h);
      [by apply Hwf|apply offset_of_mod|lia|].
    intros Heq. specialize (Hmasked q Hq). rewrite Heq, Hs, Hmk in Hmasked. done.
Qed.

Lemma run_passes imageData maskData :
  (passes (run imageData maskData) ≤ 500)%nat.
Proof. apply while_passes. Qed.

(** The arrays that the call returns are those after [passes] rounds. *)
Lemma mask_after_data imageData maskData :
  data (mask_after imageData maskData) =
    st_mask (after (width imageData) (height imageData)
               (passes (run imageData maskData)) (initial imageData maskData)).
Proof. unfold mask_after. simpl data. by rewrite run_after. Qed.

Lemma image_after_data imageData maskData :
  data (image_after imageData maskData) =
    st_data (after (width imageData) (height imageData)
               (passes (run imageData maskData)) (initial imageData maskData)).
Proof. unfold image_after. simpl data. by rewrite run_after. Qed.

(** * Further properties *)

(** X1. The scanner pushes one record for each marked pixel of the picture
    and for nothing else, every record unsolved and carrying the address of
    its pixel, in row-major order: rows from top to bottom, and from left
    to right within a row. *)
Theorem scan_row_major width height mask :
  StronglySorted row_major (scan width height mask) ∧
  NoDup (scan width height mask) ∧
  ∀ p, p ∈ scan width height mask ↔
       ∃ x y, in_bounds width height x y ∧
              masked mask (offset_of width x y) = true ∧
              p = DamagedPixel.mk x y (offset_of width x y) false.
Proof.
  assert (StronglySorted row_major (scan width height mask)) as Hsorted.
  { rewrite scan_grid. apply StronglySorted_List_filter, grid_row_major. }
  split; [done|]. split; [|apply elem_of_scan].
  apply (StronglySorted_NoDup row_major); [|done].
  unfold row_major. intros p. lia.
Qed.

(** X2. When the call returns, the unsolved records are the records that a
    scan of the mask as returned would push, so [remaining] is the number
    of pixels the mask still marks; it is at most the number of pixels
    marked at the start, and it is zero exactly when the mask marks no
    pixel of the picture any more. *)
Theorem remaining_counts_marked imageData maskData :
  let w := width imageData in
  let h := height imageData in
  let o := run imageData maskData in
  let mask' := data (mask_after imageData maskData) in
  unsolved (damagedPixels (final o)) = scan w h mask' ∧
  remaining (final o) = Z.of_nat (length (scan w h mask')) ∧
  remaining (final o) ≤ Z.of_nat (length (scan w h (data maskData))) ∧
  (remaining (final o) = 0 ↔
   ∀ x y, in_bounds w h x y → masked mask' (offset_of w x y) = false).
Proof.
  intros w h o mask'. subst o mask'. unfold mask_after. simpl data.
  rewrite run_after. fold w h.
  set (k := passes _). set (st0 := initial imageData maskData).
  destruct (after_Tracked w h k st0 (initial_Tracked imageData maskData))
    as [[_ _ Hrem] Hscan].
  split; [done|]. split; [by rewrite Hrem, Hscan|]. split.
  { apply (after_remaining_le w h k st0). }
  rewrite Hrem, Hscan. split.
  - intros Hzero x y Hb.
    destruct (masked (st_mask (after w h k st0)) (offset_of w x y)) eqn:Hm; [|done].
    assert (DamagedPixel.mk x y (offset_of w x y) false
              ∈ scan w h (st_mask (after w h k st0))) as Hin
      by (apply elem_of_scan; by exists x, y).
    destruct (scan _ _ _); [by apply elem_of_nil in Hin|]. simpl in Hzero. lia.
  - intros Hclean. by rewrite scan_none.
Qed.

(** X3. The loop runs at most as many passes as the scanner found marked
    pixels. *)
Theorem passes_at_most_marked imageData maskData :
  (passes (run imageData maskData)
   ≤ length (scan (width imageData) (height imageData) (data maskData)))%nat.
Proof.
  pose proof (while_passes_remaining (width imageData) (height imageData)
                maxIterations (initial imageData maskData)) as H.
  simpl remaining in H. unfold run. lia.
Qed.

(** X4. The mask lets go of one ring per round: after [k] rounds a pixel
    of the picture is unmarked exactly when some pixel that was unmarked
    at the start lies within [k] steps of it, a step leading to any of the
    eight neighbours. The mask that the call returns is the mask after
    [passes] rounds. *)
Theorem mask_rings imageData maskData k x y :
  let w := width imageData in
  let h := height imageData in
  in_bounds w h x y →
  (masked (st_mask (after w h k (initial imageData maskData))) (offset_of w x y)
     = false ↔
   near w h (data maskData) k x y) ∧
  (masked (data (mask_after imageData maskData)) (offset_of w x y) = false ↔
   near w h (data maskData) (passes (run imageData maskData)) x y).
Proof.
  intros w h Hb. split; [by apply after_masked_near|].
  unfold mask_after. simpl data. rewrite run_after. by apply after_masked_near.
Qed.

Lemma mask_rings_witness :
  let imageData := mkImageData 3 1 [10; 20; 30; 255; 1; 2; 3; 4; 5; 6; 7; 8] in
  let maskData := mkImageData 3 1 [0; 0; 0; 0; 0; 0; 0; 9; 0; 0; 0; 200] in
  near 3 1 (data maskData) 2 2 0.
Proof.
  intros imageData maskData.
  apply (mask_rings imageData maskData 2 2 0); [unfold in_bounds; simpl; lia|].
  reflexivity.
Defined.

(** X5. When the mask leaves a pixel of the picture unmarked, the loop is
    never left by the break of line 96; and in a picture at most 501
    pixels wide and high the call then resolves everything: the loop ends
    on [remaining > 0] failing, and the mask returned marks no pixel. *)
Theorem free_pixel_never_stuck imageData maskData x0 y0 :
  let w := width imageData in
  let h := height imageData in
  free_pixel w h (data maskData) x0 y0 →
  way_out (run imageData maskData) ≠ Stuck ∧
  (w ≤ 501 → h ≤ 501 →
   way_out (run imageData maskData) = Resolved ∧
   remaining (final (run imageData maskData)) = 0 ∧
   scan w h (data (mask_after imageData maskData)) = []).
Proof.
  intros w h Hfree.
  destruct (run_resolves_within imageData maskData
              (Z.to_nat (Z.max w h - 1))) as [Hns Hres].
  { intros x y Hb. by apply (near_anywhere w h _ x0 y0). }
  split; [done|]. intros Hw Hh.
  destruct Hres as (Hway & Hpasses & Hrem); [lia|].
  split; [done|]. split; [done|].
  unfold mask_after. simpl data. rewrite run_after in *. fold w h in Hrem |- *.
  destruct (after_Tracked w h (passes (run imageData maskData)) _
              (initial_Tracked imageData maskData)) as [[_ _ Hcount] Hscan].
  fold w h in Hcount, Hscan. rewrite Hcount, Hscan in Hrem.
  destruct (scan w h _); [done|]. simpl in Hrem. lia.
Qed.

Lemma free_pixel_never_stuck_witness :
  let imageData := mkImageData 3 1 [10; 20; 30; 255; 1; 2; 3; 4; 5; 6; 7; 8] in
  let maskData := mkImageData 3 1 [0; 0; 0; 0; 0; 0; 0; 9; 0; 0; 0; 200] in
  way_out (run imageData maskData) ≠ Stuck.
Proof.
  intros imageData maskData.
  apply (free_pixel_never_stuck imageData maskData 0 0).
  split; [unfold in_bounds; simpl; lia|reflexivity].
Defined.

(** X6. When every pixel of the picture lies within [k] steps of a pixel
    that the mask leaves unmarked, and [k] is at most the cap of 500, the
    call resolves everything in at most [k] passes. *)
Theorem resolved_within_distance imageData maskData k :
  let w := width imageData in
  let h := height imageData in
  (k ≤ 500)%nat →
  (∀ x y, in_bounds w h x y → near w h (data maskData) k x y) →
  way_out (run imageData maskData) = Resolved ∧
  (passes (run imageData maskData) ≤ k)%nat ∧
  remaining (final (run imageData maskData)) = 0.
Proof.
  intros w h Hk Hnear.
  by destruct (run_resolves_within imageData maskData k Hnear) as [_ Hres];
    apply Hres.
Qed.

Lemma resolved_within_distance_witness :
  let imageData := mkImageData 2 1 [1; 2; 3; 4; 5; 6; 7; 8] in
  let maskData := mkImageData 2 1 [9; 9; 9; 0; 9; 9; 9; 200] in
  (passes (run imageData maskData) ≤ 1)%nat.
Proof.
  intros imageData maskData.
  apply (resolved_within_distance imageData maskData 1); [lia|].
  intros x y Hb. exists 0, 0. split.
  - split; [unfold in_bounds; simpl; lia|reflexivity].
  - unfold in_bounds in Hb. simpl in Hb. lia.
Defined.

(** X7. A pixel that the call has resolved was reached by the rings: when
    no unmarked pixel lies within [k] steps of a pixel that is unmarked at
    the return, the loop has run more than [k] passes. *)
Theorem passes_at_least_distance imageData maskData k x y :
  let w := width imageData in
  let h := height imageData in
  in_bounds w h x y →
  ¬ near w h (data maskData) k x y →
  masked (data (mask_after imageData maskData)) (offset_of w x y) = false →
  (k < passes (run imageData maskData))%nat.
Proof.
  intros w h Hb Hfar Hfree. rewrite mask_after_data in Hfree.
  apply after_masked_near in Hfree; [|done].
  set (n := passes (run imageData maskData)) in *. clearbody n.
  destruct (decide (k < n)%nat) as [|Hle]; [done|].
  exfalso. apply Hfar. apply (near_mono _ _ _ n); [lia|done].
Qed.

Lemma passes_at_least_distance_witness :
  let imageData := mkImageData 3 1 [10; 20; 30; 255; 1; 2; 3; 4; 5; 6; 7; 8] in
  let maskData := mkImageData 3 1 [0; 0; 0; 0; 0; 0; 0; 9; 0; 0; 0; 200] in
  (1 < passes (run imageData maskData))%nat.
Proof.
  intros imageData maskData.
  apply (passes_at_least_distance imageData maskData 1 2 0);
    [unfold in_bounds; simpl; lia| |reflexivity].
  intros (x' & y' & [[Hx Hy] Hm] & Hdx & Hdy). simpl in *.
  assert (y' = 0) as -> by lia.
  assert (x' = 1 ∨ x' = 2) as [-> | ->] by lia; by vm_compute in Hm.
Defined.

(** X8. A pixel of the picture with no unmarked pixel within 500 steps is
    out of reach of the cap: when the call returns it is still marked,
    pixels remain, and its samples in both arrays are as the call found
    them. *)
Theorem unreached_pixel_untouched imageData maskData x y c :
  let w := width imageData in
  let h := height imageData in
  in_bounds w h x y →
  ¬ near w h (data maskData) 500 x y →
  0 ≤ c < 4 →
  masked (data (mask_after imageData maskData)) (offset_of w x y) = true ∧
  0 < remaining (final (run imageData maskData)) ∧
  read (data (image_after imageData maskData)) (offset_of w x y + c)
    = read (data imageData) (offset_of w x y + c) ∧
  read (data (mask_after imageData maskData)) (offset_of w x y + c)
    = read (data maskData) (offset_of w x y + c).
Proof.
  intros w h Hb Hfar Hc.
  unfold mask_after, image_after. simpl data. rewrite run_after. fold w h.
  set (k := passes (run imageData maskData)).
  set (st := after w h k (initial imageData maskData)).
  assert (masked (st_mask st) (offset_of w x y) = true) as Hm.
  { destruct (masked (st_mask st) (offset_of w x y)) eqn:Hm; [done|].
    apply after_masked_near in Hm; [|done]. exfalso. apply Hfar.
    apply (near_mono _ _ _ k); [|done]. apply run_passes. }
  split; [done|]. split.
  - destruct (after_Tracked w h k _ (initial_Tracked imageData maskData))
      as [[_ _ Hrem] Hscan]. fold st in Hrem, Hscan. rewrite Hrem, Hscan.
    assert (DamagedPixel.mk x y (offset_of w x y) false ∈ scan w h (st_mask st))
      as Hin by (apply elem_of_scan; by exists x, y).
    destruct (scan _ _ _); [by apply elem_of_nil in Hin|]. simpl. lia.
  - by apply (still_masked_unchanged imageData maskData k x y c).
Qed.

Lemma unreached_pixel_untouched_witness :
  free_pixel 502 1 (data strip_mask) 501 0 ∧
  ¬ near 502 1 (data strip_mask) 500 0 0 ∧
  masked (data (mask_after strip_image strip_mask)) (offset_of 502 0 0) = true ∧
  0 < remaining (final (run strip_image strip_mask)).
Proof.
  assert (¬ near 502 1 (data strip_mask) 500 0 0) as Hfar.
  { intros (x' & y' & [[Hx Hy] Hm] & Hdx & _).
    change (Z.of_nat 500) with 500 in Hdx.
    assert (y' = 0) as -> by lia.
    assert (forallb (λ x, masked (data strip_mask) (offset_of 502 x 0))
                    (range 501) = true) as Hall by (by vm_compute).
    apply Is_true_true_2 in Hall. rewrite forallb_True, Forall_forall in Hall.
    specialize (Hall x'). rewrite Hm in Hall. apply Hall, elem_of_range. lia. }
  split; [split; [in_picture|by vm_compute]|].
  split; [exact Hfar|].
  pose proof (unreached_pixel_untouched strip_image strip_mask 0 0 0) as H.
  cbv zeta in H. destruct H as (Hm & Hrem & _); [in_picture|exact Hfar|lia|].
  split; [exact Hm|exact Hrem].
Defined.

(** X9. A pixel of the picture that is still marked when the call returns
    has not been written: its four samples in the pixel array and its four
    samples in the mask array are as the call found them. *)
Theorem marked_pixel_untouched imageData maskData x y c :
  let w := width imageData in
  let h := height imageData in
  in_bounds w h x y →
  masked (data (mask_after imageData maskData)) (offset_of w x y) = true →
  0 ≤ c < 4 →
  read (data (image_after imageData maskData)) (offset_of w x y + c)
    = read (data imageData) (offset_of w x y + c) ∧
  read (data (mask_after imageData maskData)) (offset_of w x y + c)
    = read (data maskData) (offset_of w x y + c).
Proof.
  intros w h Hb Hm Hc. rewrite mask_after_data in *. rewrite image_after_data.
  by apply (still_masked_unchanged imageData maskData
              (passes (run imageData maskData)) x y c).
Qed.

Lemma marked_pixel_untouched_witness :
  let imageData := mkImageData 2 1 [1; 2; 3; 4; 5; 6; 7; 8] in
  let maskData := mkImageData 2 1 [0; 0; 0; 7; 0; 0; 0; 200] in
  read (data (image_after imageData maskData)) 5 = Some 6.
Proof.
  intros imageData maskData.
  destruct (marked_pixel_untouched imageData maskData 1 0 1) as [H _];
    [unfold in_bounds; simpl; lia|reflexivity|lia|].
  exact H.
Defined.

(** X10. What a round does at a marked pixel of the picture. The count of
    the neighbour loop is the number of unmarked neighbours inside the
    picture. When it is positive, the round stores the quotients of the
    three sums by the count, converted by ToUint8Clamp, and 255 for alpha,
    and the commit unmarks the pixel; when it is zero, the round leaves
    the four samples and the mark as they are. The sums are those over the
    arrays as the round found them. *)
Theorem round_stores imageData maskData k x y r g b count :
  let w := width imageData in
  let h := height imageData in
  let st := after w h k (initial imageData maskData) in
  let st' := after w h (S k) (initial imageData maskData) in
  let p := DamagedPixel.mk x y (offset_of w x y) false in
  let i := offset_of w x y in
  in_bounds w h x y →
  masked (st_mask st) i = true →
  neighbours w h (st_data st) (st_mask st) p = (r, g, b, count) →
  count = free_neighbours w h (st_mask st) p ∧
  (0 < count →
   read (st_data st') i = (fun _ => quot_sample r count) <$> read (st_data st) i ∧
   read (st_data st') (i + 1)
     = (fun _ => quot_sample g count) <$> read (st_data st) (i + 1) ∧
   read (st_data st') (i + 2)
     = (fun _ => quot_sample b count) <$> read (st_data st) (i + 2) ∧
   read (st_data st') (i + 3) = (fun _ => 255) <$> read (st_data st) (i + 3) ∧
   masked (st_mask st') i = false) ∧
  (count ≤ 0 →
   (∀ c, 0 ≤ c < 4 → read (st_data st') (i + c) = read (st_data st) (i + c)) ∧
   masked (st_mask st') i = true).
Proof.
  intros w h st st' p i Hb Hm Hsum.
  pose proof (after_Tracked w h k _ (initial_Tracked imageData maskData)) as Ht.
  fold st in Ht.
  assert (count = free_neighbours w h (st_mask st) p) as Hcount
    by (by rewrite <- (count_of_neighbours w h (st_mask st) (st_data st) p), Hsum).
  assert (st' = (iteration w h st).1) as -> by apply after_S.
  assert (∀ j, i ≤ j ≤ i + 3 →
            read (st_data (iteration w h st).1) j =
              if 0 <? count then read (fill_pixel (st_data st) p (r, g, b, count)) j
              else read (st_data st) j) as Hdata.
  { intros j Hj. rewrite (iteration_data_at w h st x y j Ht Hb Hm Hj).
    fold p. by rewrite Hsum. }
  assert (masked (st_mask (iteration w h st).1) i = negb (0 <? count)) as Hmask.
  { subst i. rewrite iteration_masked by done. fold p. by rewrite Hm, <- Hcount. }
  split; [done|]. split.
  - intros Hpos. apply Z.ltb_lt in Hpos. rewrite Hpos in Hdata, Hmask.
    destruct (read_fill_pixel (st_data st) p r g b count) as (R0 & R1 & R2 & R3).
    cbn [DamagedPixel.i] in R0, R1, R2, R3. fold i in R0, R1, R2, R3.
    rewrite !Hdata by lia. done.
  - intros Hzero. destruct (Z.ltb_spec 0 count); [lia|]. split; [|done].
    intros c Hc. apply Hdata. lia.
Qed.

Lemma round_stores_witness :
  let imageData := mkImageData 3 1 [10; 20; 30; 255; 1; 2; 3; 4; 5; 6; 7; 8] in
  let maskData := mkImageData 3 1 [0; 0; 0; 0; 0; 0; 0; 9; 0; 0; 0; 200] in
  1 = free_neighbours 3 1 (data maskData) (DamagedPixel.mk 1 0 4 false).
Proof.
  intros imageData maskData.
  apply (round_stores imageData maskData 0 1 0 (Num 10) (Num 20) (Num 30) 1);
    [unfold in_bounds; simpl; lia|reflexivity|reflexivity].
Defined.

(** X11. The call invents no sample out of range. For a colour channel [c]
    (0 red, 1 green, 2 blue) and bounds [lo] and [hi] within the range of a
    sample: when the pixel array covers the picture and channel [c] of
    every unmarked pixel lies between [lo] and [hi] at the start, channel
    [c] of every pixel that is unmarked at the return lies between [lo] and
    [hi]. *)
Theorem colours_stay_in_range imageData maskData lo hi c :
  let w := width imageData in
  let h := height imageData in
  0 ≤ c < 3 → 0 ≤ lo → hi ≤ 255 →
  w * h * 4 ≤ Z.of_nat (length (data imageData)) →
  (∀ x y, free_pixel w h (data maskData) x y →
          sample_within lo hi (data imageData) (offset_of w x y + c)) →
  ∀ x y, free_pixel w h (data (mask_after imageData maskData)) x y →
         sample_within lo hi (data (image_after imageData maskData))
                       (offset_of w x y + c).
Proof.
  intros w h Hc Hlo Hhi Hlen Hstart x y [Hb Hfree].
  rewrite mask_after_data in Hfree. rewrite image_after_data.
  apply (after_Within w h lo hi c Hc Hlo Hhi (passes (run imageData maskData))
           (initial imageData maskData)); try done.
  - apply initial_Tracked.
  - intros x' y' Hb' Hfree'. by apply Hstart.
Qed.

Lemma colours_stay_in_range_witness :
  let imageData := mkImageData 2 1 [10; 20; 30; 255; 5; 6; 7; 8] in
  let maskData := mkImageData 2 1 [0; 0; 0; 0; 0; 0; 0; 200] in
  sample_within 10 10 (data (image_after imageData maskData)) 4.
Proof.
  intros imageData maskData.
  apply (colours_stay_in_range imageData maskData 10 10 0 ltac:(lia) ltac:(lia)
           ltac:(lia) ltac:(simpl; lia)) with (x := 1) (y := 0).
  - intros x y [[Hx Hy] Hm]. simpl in *.
    assert (y = 0) as -> by lia.
    assert (x = 0 ∨ x = 1) as [-> | ->] by lia; [|by vm_compute in Hm].
    exists 10. split; [reflexivity|lia].
  - split; [unfold in_bounds; simpl; lia|reflexivity].
Defined.

(** X12. A pixel of the picture that the call has resolved, marked at the
    start and unmarked at the return, comes back opaque: its alpha sample
    in the pixel array is 255. *)
Theorem resolved_pixel_opaque imageData maskData x y :
  let w := width imageData in
  let h := height imageData in
  in_bounds w h x y →
  masked (data maskData) (offset_of w x y) = true →
  masked (data (mask_after imageData maskData)) (offset_of w x y) = false →
  read (data (image_after imageData maskData)) (offset_of w x y + 3)
    = (fun _ => 255) <$> read (data imageData) (offset_of w x y + 3).
Proof.
  intros w h Hb Hm0 Hm. rewrite mask_after_data in Hm. rewrite image_after_data.
  by apply after_opaque.
Qed.

Lemma resolved_pixel_opaque_witness :
  let imageData := mkImageData 2 1 [10; 20; 30; 255; 5; 6; 7; 8] in
  let maskData := mkImageData 2 1 [0; 0; 0; 0; 0; 0; 0; 200] in
  read (data (image_after imageData maskData)) 7 = Some 255.
Proof.
  intros imageData maskData.
  apply (resolved_pixel_opaque imageData maskData 1 0);
    [unfold in_bounds; simpl; lia|reflexivity|reflexivity].
Defined.

(** * Further properties: the history of the application *)

Section history.
Implicit Types (app : App.t) (current : ImageData).

(** The history [saveState] leaves: the snapshot goes last, and the oldest
    entry goes when there were 20 already. *)
Lemma saveState_history isInitial current app :
  (length (App.history app) ≤ 20)%nat →
  App.history (App.saveState isInitial current app) =
    (if (length (App.history app) <? 20)%nat then App.history app
     else tail (App.history app)) ++ [current].
Proof.
  intros Hlen. unfold App.saveState. cbn [App.history].
  rewrite length_app. cbn [length].
  destruct (Nat.ltb_spec (length (App.history app)) 20).
  - destruct (Nat.ltb_spec 20 (length (App.history app) + 1)); [lia|done].
  - destruct (Nat.ltb_spec 20 (length (App.history app) + 1)); [|lia].
    destruct (App.history app); [simpl in *; lia|done].
Qed.

End history.



(** X14. [undo] right after [saveState] hands back to the canvas the very
    snapshot that was saved, and leaves the history as it was before the
    save, less its oldest entry when it held 20; the undo button is
    disabled exactly when that history is empty. On an empty history [undo]
    puts nothing and changes nothing. *)
Theorem undo_after_saveState isInitial current (app : App.t) :
  (length (App.history app) ≤ 20)%nat →
  let kept :=
    if (length (App.history app) <? 20)%nat then App.history app
    else tail (App.history app) in
  App.undo (App.saveState isInitial current app) =
    (Some current,
     App.mk kept
            (if isInitial then Some current else App.originalImageData app)
            (App.tempState app)
            (length kept =? 0)%nat) ∧
  (App.history app = [] → App.undo app = (None, app)).
Proof.
  intros Hlen kept. split.
  - unfold App.undo. rewrite saveState_history by done. fold kept.
    rewrite length_app, last_snoc, removelast_last. cbn [length].
    destruct (Nat.ltb_spec 0 (length kept + 1)); [done|lia].
  - intros Hempty. unfold App.undo. by rewrite Hempty.
Qed.

Lemma undo_after_saveState_witness :
  let s := mkImageData 1 1 [1; 2; 3; 4] in
  (App.undo (App.saveState false s (App.mk [] None None true))).1 = Some s.
Proof.
  intros s.
  destruct (undo_after_saveState false s (App.mk [] None None true)) as [H _];
    [simpl; lia|].
  by rewrite H.
Defined.

(** X15. Pressing and releasing the compare button is a round trip: with
    an original kept, [showOriginal(true)] puts the original on the canvas
    and keeps the picture that was there, the next [showOriginal(false)]
    puts that picture back and forgets it, leaving the application as it
    was before the press when nothing was kept then, and a second release
    does nothing. With no original kept, neither call does anything. *)
Theorem showOriginal_round_trip (app : App.t) (original shown later : ImageData) :
  App.originalImageData app = Some original →
  let pressed := App.showOriginal true shown app in
  let released := App.showOriginal false later pressed.2 in
  pressed.1 = Some original ∧
  App.tempState pressed.2 = Some shown ∧
  released.1 = Some shown ∧
  App.tempState released.2 = None ∧
  App.history released.2 = App.history app ∧
  App.originalImageData released.2 = Some original ∧
  (App.tempState app = None → released.2 = app) ∧
  App.showOriginal false later released.2 = (None, released.2).
Proof.
  destruct app as [h o t d]. simpl. intros ->. cbn.
  repeat split; try done. by intros ->.
Qed.

Lemma showOriginal_round_trip_witness :
  let s := mkImageData 1 1 [1; 2; 3; 4] in
  let c := mkImageData 1 1 [5; 6; 7; 8] in
  (App.showOriginal true c (App.mk [s] (Some s) None false)).1 = Some s.
Proof.
  intros s c.
  apply (showOriginal_round_trip (App.mk [s] (Some s) None false) s c c).
  reflexivity.
Defined.
